(** * package statediff: the state-diffing service and the extractor

    A shallow embedding of [statediff/service.go] and
    [statediff/extractor.go].  The Go runtime pieces the package relies on
    (channels with non-blocking sends, [sync.Mutex], [atomic] compare and
    swap, [range] over a map) are written out in [Module Go]; the methods
    of [Service] are programs of a small state monad over the service
    object and the channels reachable from it. *)

From Stdlib Require Import ZArith Lia.
From stdpp Require Import base option list gmap strings.

Local Open Scope Z_scope.

(** ** Go runtime *)

Module Go.

(** Byte slices and arrays are lists of byte values. *)
Abbreviation bytes := (list N).

(** Go's [error] values are compared against [nil] only; they carry a
    message. *)
Definition error := string.

(** Run-time panics the package can raise. *)
Inductive panic :=
  | SendOnClosedChannel
  | CloseOfClosedChannel
  | CloseOfNilChannel.

(** A channel of element type [A]: capacity, buffered elements (oldest
    first), number of goroutines parked in a receive, the elements
    receivers have already taken (oldest first), and the closed flag. *)
Record chan (A : Type) := Chan {
  cap : nat;
  buf : list A;
  recvq : nat;
  taken : list A;
  closed : bool
}.
Arguments Chan {A}.
Arguments cap {A}.
Arguments buf {A}.
Arguments recvq {A}.
Arguments taken {A}.
Arguments closed {A}.

(** Everything ever accepted by the channel, in order. *)
Definition accepted {A} (c : chan A) : list A := taken c ++ buf c.

(** [make(chan A, n)] *)
Definition make {A} (n : nat) : chan A := Chan n [] 0 [] false.

(** The communication [case ch <- v:] of a [select] that has a [default]
    arm.  [None] is the nil channel, which is never ready.  A closed
    channel panics; a parked receiver takes the value directly; otherwise
    the value is buffered when there is room. *)
Inductive trysend (A : Type) :=
  | Sent (c : chan A)
  | NotReady
  | SendPanics.
Arguments Sent {A}.
Arguments NotReady {A}.
Arguments SendPanics {A}.

Definition chansend_nb {A} (ch : option (chan A)) (v : A) : trysend A :=
  match ch with
  | None => NotReady
  | Some c =>
      if closed c then SendPanics
      else if (0 <? recvq c)%nat then
        Sent (Chan (cap c) (buf c) (Nat.pred (recvq c)) (taken c ++ [v]) false)
      else if (length (buf c) <? cap c)%nat then
        Sent (Chan (cap c) (buf c ++ [v]) (recvq c) (taken c) false)
      else NotReady
  end.

(** [close(ch)]: parked receivers are released. *)
Definition closechan {A} (ch : option (chan A)) : chan A + panic :=
  match ch with
  | None => inr CloseOfNilChannel
  | Some c =>
      if closed c then inr CloseOfClosedChannel
      else inl (Chan (cap c) (buf c) 0 (taken c) true)
  end.

(** [atomic.CompareAndSwapInt32(&x, old, new)] on the current value [x]:
    whether it swapped, and the value afterwards. *)
Definition CompareAndSwapInt32 (x old new : Z) : bool * Z :=
  if x =? old then (true, new) else (false, x).

(** [for k, v := range m]: the entries of [m] are visited once each, in an
    order the language leaves open. *)
Definition ranges `{Countable K} {V} (m : gmap K V) (order : list (K * V)) : Prop :=
  order ≡ₚ map_to_list m.

End Go.

Import Go.

(** ** Types of the service *)

Module rpc.
Definition ID := string.
End rpc.

(** Channels live in a store and are named by a reference; a reference
    with no channel behind it is the nil channel. *)
Definition ref := nat.

Record Payload := { StateDiffRlp : bytes }.

Module Subscription.
Record t := mk {
  PayloadChan : ref;
  QuitChan : ref
}.
End Subscription.

(** Lines written by [log.Error] and [log.Warn]; [log.Info] lines are not
    recorded. *)
Inductive logline :=
  | LogError (blockNumber : Z) (processingErr : error)
  | LogWarn (err : error).

(** The [Service] object.  [Builder], [BlockChain] and [lastBlock] are not
    touched by the methods below and are left out. *)
Record Service := {
  Mutex : bool;
  QuitChan : ref;
  Subscriptions : gmap rpc.ID Subscription.t;
  subscribers : Z
}.

(** The service together with the channels it can reach and the log. *)
Record world := {
  sds : Service;
  payloadChans : gmap ref (chan Payload);
  boolChans : gmap ref (chan bool);
  logged : list logline
}.

(** ** The monad of service methods

    The methods are run one at a time, so between two of them the mutex
    is held only when a method has returned without releasing it.  A
    method either returns with a value, panics, or parks its goroutine
    forever on a mutex nobody will release. *)
Inductive result (A : Type) :=
  | Done (a : A) (w : world)
  | Panicked (p : panic)
  | Blocked (w : world).
Arguments Done {A}.
Arguments Panicked {A}.
Arguments Blocked {A}.

Definition M (A : Type) := world → result A.

Definition ret {A} (a : A) : M A := fun w => Done a w.

Definition bind {A B} (m : M A) (k : A → M B) : M B :=
  fun w =>
    match m w with
    | Done a w' => k a w'
    | Panicked p => Panicked p
    | Blocked w' => Blocked w'
    end.

Notation "x <- m ;; k" := (bind m (fun x => k))
  (at level 200, m at level 99, k at level 200, only parsing).
Notation "m ;;; k" := (bind m (fun _ => k))
  (at level 200, k at level 200, only parsing).

Definition getService : M Service := fun w => Done (sds w) w.

Definition setService (f : Service → Service) : M unit :=
  fun w => Done tt {| sds := f (sds w); payloadChans := payloadChans w;
                      boolChans := boolChans w; logged := logged w |}.

Definition park {A} : M A := fun w => Blocked w.

Definition log (l : logline) : M unit :=
  fun w => Done tt {| sds := sds w; payloadChans := payloadChans w;
                      boolChans := boolChans w; logged := logged w ++ [l] |}.

(** [sds.Lock()] and [sds.Unlock()] *)
Definition withMutex (b : bool) (s : Service) : Service :=
  {| Mutex := b; QuitChan := QuitChan s;
     Subscriptions := Subscriptions s; subscribers := subscribers s |}.

Definition Lock : M unit :=
  s <- getService ;;
  if Mutex s then park else setService (withMutex true).

Definition Unlock : M unit := setService (withMutex false).

(** [atomic.CompareAndSwapInt32(&sds.subscribers, old, new)] *)
Definition casSubscribers (old new : Z) : M bool :=
  s <- getService ;;
  let r := CompareAndSwapInt32 (subscribers s) old new in
  setService (fun s => {| Mutex := Mutex s; QuitChan := QuitChan s;
                          Subscriptions := Subscriptions s;
                          subscribers := r.2 |}) ;;;
  ret r.1.

Definition updSubscriptions
    (f : gmap rpc.ID Subscription.t → gmap rpc.ID Subscription.t) : M unit :=
  setService (fun s => {| Mutex := Mutex s; QuitChan := QuitChan s;
                          Subscriptions := f (Subscriptions s);
                          subscribers := subscribers s |}).

(** [select { case ch <- v: ... default: ... }] on a payload channel:
    whether the send arm was taken. *)
Definition trySendPayload (ch : ref) (v : Payload) : M bool :=
  fun w =>
    match chansend_nb (payloadChans w !! ch) v with
    | Sent c => Done true {| sds := sds w;
                             payloadChans := <[ch := c]> (payloadChans w);
                             boolChans := boolChans w; logged := logged w |}
    | NotReady => Done false w
    | SendPanics => Panicked SendOnClosedChannel
    end.

(** The same on a [chan<- bool]. *)
Definition trySendBool (ch : ref) (v : bool) : M bool :=
  fun w =>
    match chansend_nb (boolChans w !! ch) v with
    | Sent c => Done true {| sds := sds w; payloadChans := payloadChans w;
                             boolChans := <[ch := c]> (boolChans w);
                             logged := logged w |}
    | NotReady => Done false w
    | SendPanics => Panicked SendOnClosedChannel
    end.

(** [close(ch)] on a [chan bool]. *)
Definition closeBool (ch : ref) : M unit :=
  fun w =>
    match closechan (boolChans w !! ch) with
    | inl c => Done tt {| sds := sds w; payloadChans := payloadChans w;
                          boolChans := <[ch := c]> (boolChans w);
                          logged := logged w |}
    | inr p => Panicked p
    end.

(** The body of a [range] loop run over the entries in visiting order. *)
Fixpoint forEach {A} (l : list A) (body : A → M unit) : M unit :=
  match l with
  | [] => ret tt
  | x :: l' => body x ;;; forEach l' body
  end.

(** ** Registry operations of [Service] *)

(** [func (sds *Service) Subscribe(id rpc.ID, sub chan<- Payload, quitChan chan<- bool)] *)
Definition Subscribe (id : rpc.ID) (sub quitChan : ref) : M unit :=
  casSubscribers 0 1 ;;;
  Lock ;;;
  updSubscriptions (insert id (Subscription.mk sub quitChan)) ;;;
  Unlock.

(** [func (sds *Service) Unsubscribe(id rpc.ID) error] *)
Definition Unsubscribe (id : rpc.ID) : M (option error) :=
  Lock ;;;
  s <- getService ;;
  match Subscriptions s !! id with
  | None =>
      ret (Some ("cannot unsubscribe; subscription for id " +:+ id +:+
                 " does not exist")%string)
  | Some _ =>
      updSubscriptions (delete id) ;;;
      s <- getService ;;
      (if (size (Subscriptions s) =? 0)%nat
       then casSubscribers 1 0 ;;; ret tt
       else ret tt) ;;;
      Unlock ;;;
      ret None
  end.

(** [func (sds *Service) Stop() error] *)
Definition Stop : M (option error) :=
  s <- getService ;;
  closeBool (QuitChan s) ;;;
  ret None.

(** The body of the loop of [send], for the entry [id, sub]: the outer
    [select] offers the payload; its [default] arm offers the quit signal
    in a second [select] and deletes the entry. *)
Definition offer (payload : Payload) (entry : rpc.ID * Subscription.t) : M unit :=
  let '(id, sub) := entry in
  sent <- trySendPayload (Subscription.PayloadChan sub) payload ;;
  if sent then ret tt
  else
    trySendBool (Subscription.QuitChan sub) true ;;;
    updSubscriptions (delete id).

(** [func (sds *Service) send(payload Payload)]; [order] is the order in
    which [range sds.Subscriptions] yields the entries. *)
Definition send (order : list (rpc.ID * Subscription.t)) (payload : Payload)
    : M unit :=
  Lock ;;;
  forEach order (offer payload) ;;;
  s <- getService ;;
  (if (size (Subscriptions s) =? 0)%nat
   then casSubscribers 1 0 ;;; ret tt
   else ret tt) ;;;
  Unlock.

(** The body of the loop of [close]. *)
Definition cancel (entry : rpc.ID * Subscription.t) : M unit :=
  let '(id, sub) := entry in
  trySendBool (Subscription.QuitChan sub) true ;;;
  updSubscriptions (delete id).

(** [func (sds *Service) close()] *)
Definition close (order : list (rpc.ID * Subscription.t)) : M unit :=
  Lock ;;;
  forEach order cancel ;;;
  Unlock.

(** ** Construction of the service *)



(** ** State change events and diff records *)

Module common.
(** [common.Address] and [common.Hash] are the byte arrays of package
    [common] ([[20]byte] and [[32]byte]).  Both are keys of a map and are
    sliced into a [[]byte], which only an array allows. *)
Abbreviation Address := bytes.
Abbreviation Hash := bytes.
End common.

Module types.
(** What the package reads of a [types.Block]. *)
Record Block := {
  Root : common.Hash;
  Number : Z;
  Hash : common.Hash
}.
End types.

Module state.
(** [A] is the type [state.Account]. *)
Record ModifiedAccount (A : Type) := {
  Account : A;
  Storage : gmap common.Hash common.Hash
}.
Arguments Account {A}.
Arguments Storage {A}.

Record StateChanges (A : Type) := {
  ModifiedAccounts : gmap common.Address (ModifiedAccount A)
}.
Arguments ModifiedAccounts {A}.
End state.

Module core.
Record StateChangeEvent (A : Type) := {
  Block : types.Block;
  StateChanges : state.StateChanges A
}.
Arguments Block {A}.
Arguments StateChanges {A}.
End core.

(** A [[]byte] value built by [processStateChanges] either has a backing
    array of its own, or is [x[:]] for an array variable [x] and shares the
    storage of that variable: what it shows is what the variable holds when
    it is read.  Array variables live in a frame and are named by their
    position in it. *)
Inductive slice :=
  | Fresh (b : bytes)
  | Of (x : nat).

Abbreviation frame := (list bytes) (only parsing).

(** What a reader of the slice sees. *)
Definition load (fr : frame) (s : slice) : bytes :=
  match s with
  | Fresh b => b
  | Of x => default [] (fr !! x)
  end.

(** The diff records, over the representation [B] of their byte slices. *)
Module StorageDiff.
Record t (B : Type) := mk { Key : B; Value : B }.
Arguments mk {B}.
Arguments Key {B}.
Arguments Value {B}.
Definition map {B C} (f : B → C) (d : t B) : t C := mk (f (Key d)) (f (Value d)).
End StorageDiff.

Module AccountDiff.
Record t (B : Type) := mk {
  Key : B;
  Value : B;
  Storage : list (StorageDiff.t B)
}.
Arguments mk {B}.
Arguments Key {B}.
Arguments Value {B}.
Arguments Storage {B}.
Definition map {B C} (f : B → C) (d : t B) : t C :=
  mk (f (Key d)) (f (Value d)) (StorageDiff.map f <$> Storage d).
End AccountDiff.

Module StateDiff.
Record t (B : Type) := mk {
  BlockNumber : Z;
  BlockHash : common.Hash;
  UpdatedAccounts : list (AccountDiff.t B);
  encoded : bytes;
  err : option error
}.
Arguments mk {B}.
Arguments BlockNumber {B}.
Arguments BlockHash {B}.
Arguments UpdatedAccounts {B}.
Arguments encoded {B}.
Arguments err {B}.
Definition map {B C} (f : B → C) (d : t B) : t C :=
  mk (BlockNumber d) (BlockHash d) (AccountDiff.map f <$> UpdatedAccounts d)
     (encoded d) (err d).
End StateDiff.

(** The orders in which the three [range] loops of one call of
    [processStateChanges] visit their maps. *)
Record iteration (A : Type) := {
  accountOrder : list (common.Address * state.ModifiedAccount A);
  storageOrder : common.Address → list (common.Hash * common.Hash);
  subscriptionOrder : list (rpc.ID * Subscription.t)
}.
Arguments accountOrder {A}.
Arguments storageOrder {A}.
Arguments subscriptionOrder {A}.

(** The case a [select] of [Loop] took, with the iteration orders of the
    code it then runs. *)
Inductive selected (A : Type) :=
  | EventReceived (stateChangeEvent : core.StateChangeEvent A) (it : iteration A)
  | ErrReceived (err : error) (order : list (rpc.ID * Subscription.t))
  | QuitReceived (order : list (rpc.ID * Subscription.t)).
Arguments EventReceived {A}.
Arguments ErrReceived {A}.
Arguments QuitReceived {A}.

(** Where [Loop] stands after the cases taken so far. *)
Inductive loopState := Waiting | Returned.

Section Processing.

(** [rlp.EncodeToBytes] at the two types it is called on. *)
Context {A : Type}.
Variable EncodeAccount : A → bytes + error.
Variable EncodeStateDiff : StateDiff.t bytes → bytes + error.

(** [for k, v := range modifiedAccount.Storage].  In the Go this code is
    written for (before 1.22) a [range] loop has one variable per loop,
    which every iteration assigns anew: [k] and [v] are the two array
    variables of the loop; every iteration assigns them and appends a diff
    whose slices are [k[:]] and [v[:]]. *)
Fixpoint rangeStorage (k v : nat) (entries : list (common.Hash * common.Hash))
    (storageDiffs : list (StorageDiff.t slice)) (fr : frame)
    : list (StorageDiff.t slice) * frame :=
  match entries with
  | [] => (storageDiffs, fr)
  | (key, val) :: rest =>
      let fr := <[v := val]> (<[k := key]> fr) in
      let diff := StorageDiff.mk (Of k) (Of v) in
      rangeStorage k v rest (storageDiffs ++ [diff]) fr
  end.

(** [for addr, modifiedAccount := range modifiedAccounts]: [addr] is the
    array variable of the loop, assigned by every iteration; the key of the
    account diff is [addr[:]], its value the freshly allocated
    [accountBytes].  Each execution of the inner [for] statement declares
    its own [k] and [v]. *)
Fixpoint rangeAccounts (addr : nat)
    (entries : list (common.Address * state.ModifiedAccount A))
    (storageOrder : common.Address → list (common.Hash * common.Hash))
    (accountDiffs : list (AccountDiff.t slice)) (fr : frame)
    : list (AccountDiff.t slice) * frame + error :=
  match entries with
  | [] => inl (accountDiffs, fr)
  | (a, modifiedAccount) :: rest =>
      let fr := <[addr := a]> fr in
      match EncodeAccount (state.Account modifiedAccount) with
      | inr err => inr err
      | inl accountBytes =>
          let k := length fr in
          let v := S (length fr) in
          let '(storageDiffs, fr) :=
            rangeStorage k v (storageOrder a) [] (fr ++ [[]; []]) in
          let accountDiff :=
            AccountDiff.mk (Of addr) (Fresh accountBytes) storageDiffs in
          rangeAccounts addr rest storageOrder (accountDiffs ++ [accountDiff]) fr
      end
  end.

(** The part of [processStateChanges] up to the construction of
    [stateDiff], as [rlp.EncodeToBytes] then reads it. *)
Definition assemble (stateChangeEvent : core.StateChangeEvent A)
    (it : iteration A) : StateDiff.t bytes + error :=
  match rangeAccounts 0 (accountOrder it) (storageOrder it) [] [[]] with
  | inr err => inr err
  | inl (accountDiffs, fr) =>
      let stateDiff :=
        StateDiff.mk (types.Number (core.Block stateChangeEvent))
                     (types.Hash (core.Block stateChangeEvent))
                     accountDiffs [] None in
      inl (StateDiff.map (load fr) stateDiff)
  end.

(** [func (sds *Service) processStateChanges(stateChangeEvent core.StateChangeEvent) error] *)
Definition processStateChanges (stateChangeEvent : core.StateChangeEvent A)
    (it : iteration A) : M (option error) :=
  match assemble stateChangeEvent it with
  | inr err => ret (Some err)
  | inl stateDiff =>
      match EncodeStateDiff stateDiff with
      | inr err => ret (Some err)
      | inl stateDiffRlp =>
          let payload := {| StateDiffRlp := stateDiffRlp |} in
          send (subscriptionOrder it) payload ;;;
          ret None
      end
  end.

(** [func (sds *Service) Loop(stateChangeEventCh chan core.StateChangeEvent)],
    run over the cases its [select] takes, in order.  The subscription to
    the block chain and its deferred [Unsubscribe] belong to the
    [blockChain] collaborator and are not modelled. *)
Fixpoint Loop (cases : list (selected A)) : M loopState :=
  match cases with
  | [] => ret Waiting
  | EventReceived stateChangeEvent it :: rest =>
      processingErr <- processStateChanges stateChangeEvent it ;;
      match processingErr with
      | Some e => log (LogError (types.Number (core.Block stateChangeEvent)) e)
      | None => ret tt
      end ;;;
      Loop rest
  | ErrReceived err order :: _ =>
      log (LogWarn err) ;;;
      close order ;;;
      ret Returned
  | QuitReceived order :: _ =>
      close order ;;;
      ret Returned
  end.

End Processing.

(** The iteration orders of an event are those of its maps. *)
Definition ranges_event {A} (ev : core.StateChangeEvent A) (it : iteration A) : Prop :=
  ranges (state.ModifiedAccounts (core.StateChanges ev)) (accountOrder it) ∧
  ∀ a m, state.ModifiedAccounts (core.StateChanges ev) !! a = Some m →
         ranges (state.Storage m) (storageOrder it a).

(** ** The extractor *)

(** [Int64] of a [big.Int]: the low 64 bits of the magnitude as an [int64],
    negated for a negative number. *)
Definition wrap64 (z : Z) : Z := (z + 2 ^ 63) mod 2 ^ 64 - 2 ^ 63.

Definition Int64 (x : Z) : Z :=
  let v := wrap64 (Z.abs x mod 2 ^ 64) in
  if x <? 0 then wrap64 (- v) else v.

Section Extractor.

(** [W] is the state behind the two collaborators (the database the
    builder reads, the datastore the publisher writes); [D] is the type
    [*StateDiff] the builder returns. *)
Context {W D : Type}.
Variable BuildStateDiff :
  common.Hash → common.Hash → Z → common.Hash → W → (D * option error) * W.
Variable PublishStateDiff : D → W → (string * option error) * W.

(** [func (e *extractor) ExtractStateDiff(parent, current types.Block) (string, error)] *)
Definition ExtractStateDiff (parent current : types.Block) (w : W)
    : (string * option error) * W :=
  let '((stateDiff, err), w) :=
    BuildStateDiff (types.Root parent) (types.Root current)
                   (Int64 (types.Number current)) (types.Hash current) w in
  match err with
  | Some e => ((EmptyString, Some e), w)
  | None => PublishStateDiff stateDiff w
  end.

End Extractor.

(** * Vocabulary of the statements *)

(** The world with another service object. *)
Definition withService (s : Service) (w : world) : world :=
  {| sds := s; payloadChans := payloadChans w;
     boolChans := boolChans w; logged := logged w |}.

(** The flag after the reset [send] and [Unsubscribe] perform once the
    mapping is [subs]. *)
Definition resetFlag (subs : gmap rpc.ID Subscription.t) (flag : Z) : Z :=
  if (size subs =? 0)%nat then (CompareAndSwapInt32 flag 1 0).2 else flag.

(** A channel is open in a store when its reference is nil or names a
    channel that has not been closed. *)
Definition open_at {A} (h : gmap ref (chan A)) (r : ref) : Prop :=
  ∀ c, h !! r = Some c → closed c = false.

(** Receivers park only on an empty buffer. *)
Definition chan_ok {A} (c : chan A) : Prop :=
  (0 < recvq c)%nat → buf c = [].

(** The store of quit channels after a best-effort signal on [r]. *)
Definition signal (h : gmap ref (chan bool)) (r : ref) : gmap ref (chan bool) :=
  match chansend_nb (h !! r) true with
  | Sent c => <[r := c]> h
  | _ => h
  end.

(** The entries' sinks are all open. *)
Definition sinks_open (w : world) (l : list (rpc.ID * Subscription.t)) : Prop :=
  ∀ id sub, (id, sub) ∈ l →
    open_at (payloadChans w) (Subscription.PayloadChan sub) ∧
    open_at (boolChans w) (Subscription.QuitChan sub).

(** Deleting the keys of [l], in turn. *)
Definition deleteAll (l : list (rpc.ID * Subscription.t))
    (m : gmap rpc.ID Subscription.t) : gmap rpc.ID Subscription.t :=
  foldl (fun m e => delete e.1 m) m l.

(** A best-effort quit signal to each entry of [l], in turn. *)
Definition signalAll (l : list (rpc.ID * Subscription.t))
    (h : gmap ref (chan bool)) : gmap ref (chan bool) :=
  foldl (fun h e => signal h (Subscription.QuitChan e.2)) h l.

(** The world in which the loops of [send] and [close] start. *)
Definition locked (w : world) : world := withService (withMutex true (sds w)) w.

(** The world [send] returns in, from the one its loop ended in. *)
Definition afterSend (w1 : world) : world :=
  withService
    {| Mutex := false; QuitChan := QuitChan (sds w1);
       Subscriptions := Subscriptions (sds w1);
       subscribers := resetFlag (Subscriptions (sds w1)) (subscribers (sds w1)) |}
    w1.

(** No other entry of the registry sends on the payload sink of [id]. *)
Definition unshared (m : gmap rpc.ID Subscription.t) (id : rpc.ID)
    (sub : Subscription.t) : Prop :=
  ∀ id' sub', m !! id' = Some sub' → id' ≠ id →
    Subscription.PayloadChan sub' ≠ Subscription.PayloadChan sub.

(** The store of quit channels with the channel at [r] replaced. *)
Definition withBoolChan (r : ref) (c : chan bool) (w : world) : world :=
  {| sds := sds w; payloadChans := payloadChans w;
     boolChans := <[r := c]> (boolChans w); logged := logged w |}.

(** The flag says whether there are subscribers. *)
Definition flag_agrees (w : world) : Prop :=
  (subscribers (sds w) = 1 ∧ Subscriptions (sds w) ≠ ∅) ∨
  (subscribers (sds w) = 0 ∧ Subscriptions (sds w) = ∅).

(** The world after a line has been logged. *)
Definition logging (l : logline) (w : world) : world :=
  {| sds := sds w; payloadChans := payloadChans w;
     boolChans := boolChans w; logged := logged w ++ [l] |}.

(** The registry entries a stopping case of [Loop] ranges over. *)
Definition stopCase {A} (c : selected A) : option (list (rpc.ID * Subscription.t)) :=
  match c with
  | EventReceived _ _ => None
  | ErrReceived _ order => Some order
  | QuitReceived order => Some order
  end.

(** The world in which the stopping case calls [close]. *)
Definition beforeClose {A} (c : selected A) (w : world) : world :=
  match c with
  | ErrReceived err _ => logging (LogWarn err) w
  | _ => w
  end.

(** The storage diffs as read after the loop over [entries]. *)
Definition observedStorage (entries : list (common.Hash * common.Hash))
    : list (StorageDiff.t bytes) :=
  match last entries with
  | None => []
  | Some (key, val) => replicate (length entries) (StorageDiff.mk key val)
  end.

(** The account diffs as read after the loop over [entries], where
    [encoded] gives the serialized accounts. *)
Definition observedAccounts {A}
    (storageOrder : common.Address → list (common.Hash * common.Hash))
    (entries : list (common.Address * state.ModifiedAccount A))
    (encoded : list bytes) : list (AccountDiff.t bytes) :=
  match last entries with
  | None => []
  | Some (lastAddr, _) =>
      zip_with (fun e accountBytes =>
                  AccountDiff.mk lastAddr accountBytes
                    (observedStorage (storageOrder e.1)))
               entries encoded
  end.

(** The frame after the assignments of the loop over [entries]. *)
Definition assigned (k v : nat) (entries : list (common.Hash * common.Hash))
    (fr : frame) : frame :=
  foldl (fun fr e => <[v := e.2]> (<[k := e.1]> fr)) fr entries.

(** The diff record of a block that modified no account. *)
Definition emptyDiff {A} (stateChangeEvent : core.StateChangeEvent A)
    : StateDiff.t bytes :=
  StateDiff.mk (types.Number (core.Block stateChangeEvent))
               (types.Hash (core.Block stateChangeEvent)) [] [] None.

(** A receiver that takes everything its channel has buffered. *)
Definition drained {A} (c : chan A) : chan A :=
  Chan (cap c) [] (recvq c) (taken c ++ buf c) (closed c).

(** The world after the receiver behind the payload channel [r] has
    drained it. *)
Definition drain (r : ref) (w : world) : world :=
  {| sds := sds w;
     payloadChans := alter drained r (payloadChans w);
     boolChans := boolChans w; logged := logged w |}.

(** A run of [send], one call per payload in any order [range] allows,
    with the receiver behind [r] draining its channel after every call. *)
Inductive fanned (r : ref) : list Payload → world → world → Prop :=
  | fanned_nil (w : world) : fanned r [] w w
  | fanned_cons (payload : Payload) (payloads : list Payload)
      (order : list (rpc.ID * Subscription.t)) (w w1 w' : world) :
      ranges (Subscriptions (sds w)) order →
      send order payload w = Done tt w1 →
      fanned r payloads (drain r w1) w' →
      fanned r (payload :: payloads) w w'.

(** The room left in a sink that is never drained, after one more
    payload was offered; [None] once the sink has overflowed. *)
Definition nextRoom (room : option nat) : option nat :=
  match room with
  | Some (S n) => Some n
  | _ => None
  end.

(** Two subscribers [a] and [b] with different payload sinks: [b] is
    registered, its open sink of capacity at least one is drained and has
    let [hist] through; [a] is registered while its open, never drained
    sink still had room for [room] payloads when the last payload came, and
    is not registered once it has overflowed. *)
Definition isolated (a b : rpc.ID) (sa sb : Subscription.t)
    (room : option nat) (hist : list Payload) (w : world) : Prop :=
  Mutex (sds w) = false ∧
  Subscriptions (sds w) !! b = Some sb ∧
  (∀ id s, Subscriptions (sds w) !! id = Some s → id = b ∨ (id = a ∧ s = sa)) ∧
  (∃ cb, payloadChans w !! Subscription.PayloadChan sb = Some cb ∧
         closed cb = false ∧ recvq cb = 0%nat ∧ buf cb = [] ∧
         (1 ≤ cap cb)%nat ∧ taken cb = hist) ∧
  open_at (boolChans w) (Subscription.QuitChan sa) ∧
  open_at (boolChans w) (Subscription.QuitChan sb) ∧
  match room with
  | Some n =>
      Subscriptions (sds w) !! a = Some sa ∧
      ∃ ca, payloadChans w !! Subscription.PayloadChan sa = Some ca ∧
            closed ca = false ∧ recvq ca = 0%nat ∧
            (length (buf ca) + n = cap ca)%nat
  | None => Subscriptions (sds w) !! a = None
  end.

(** The payload [processStateChanges] hands to [send] for an event, when
    the accounts and the diff record encode. *)
Definition payloadOf {A} (EncodeAccount : A → bytes + error)
    (EncodeStateDiff : StateDiff.t bytes → bytes + error)
    (case : core.StateChangeEvent A * iteration A) : option Payload :=
  match assemble EncodeAccount case.1 case.2 with
  | inr _ => None
  | inl stateDiff =>
      match EncodeStateDiff stateDiff with
      | inr _ => None
      | inl stateDiffRlp => Some {| StateDiffRlp := stateDiffRlp |}
      end
  end.

(** The world with the payload channel at [r] replaced. *)
Definition withPayloadChan (r : ref) (c : chan Payload) (w : world) : world :=
  {| sds := sds w; payloadChans := <[r := c]> (payloadChans w);
     boolChans := boolChans w; logged := logged w |}.

(** Whether the channel behind [r] has been closed. *)
Definition closedAt {A} (h : gmap ref (chan A)) (r : ref) : bool :=
  match h !! r with
  | Some c => closed c
  | None => false
  end.

(** The world after the entry [id] has been offered the quit signal on
    [q] and deleted. *)
Definition cancelled (id : rpc.ID) (q : ref) (w : world) : world :=
  {| sds := {| Mutex := Mutex (sds w); QuitChan := QuitChan (sds w);
               Subscriptions := delete id (Subscriptions (sds w));
               subscribers := subscribers (sds w) |};
     payloadChans := payloadChans w;
     boolChans := signal (boolChans w) q; logged := logged w |}.

(** Two steps that can be run in either order. *)
Definition commute (f g : M unit) : Prop :=
  ∀ w, bind f (fun _ => g) w = bind g (fun _ => f) w.

(** The line [Loop] logs for a case: the error of an event that does not
    assemble or encode, the warning for an upstream error, nothing
    otherwise. *)
Definition lineOf {A} (EncodeAccount : A → bytes + error)
    (EncodeStateDiff : StateDiff.t bytes → bytes + error)
    (c : selected A) : option logline :=
  match c with
  | EventReceived ev it =>
      match assemble EncodeAccount ev it with
      | inr e => Some (LogError (types.Number (core.Block ev)) e)
      | inl stateDiff =>
          match EncodeStateDiff stateDiff with
          | inr e => Some (LogError (types.Number (core.Block ev)) e)
          | inl _ => None
          end
      end
  | ErrReceived err _ => Some (LogWarn err)
  | QuitReceived _ => None
  end.


(** The storage diffs and account diffs as they would read if every key
    and value had a backing array of its own: each diff shows the entry
    it was appended for. *)
Definition keyedStorage (entries : list (common.Hash * common.Hash))
    : list (StorageDiff.t bytes) :=
  (fun e => StorageDiff.mk e.1 e.2) <$> entries.

Definition keyedAccounts {A}
    (storageOrder : common.Address → list (common.Hash * common.Hash))
    (entries : list (common.Address * state.ModifiedAccount A))
    (encoded : list bytes) : list (AccountDiff.t bytes) :=
  zip_with (fun e accountBytes =>
              AccountDiff.mk e.1 accountBytes (keyedStorage (storageOrder e.1)))
           entries encoded.

(** * Concrete services and events *)

(** Subscriber [a] never drains its sink, which is full; the sink of
    subscriber [b] has room. *)
Definition subA : Subscription.t := Subscription.mk 1%nat 3%nat.
Definition subB : Subscription.t := Subscription.mk 2%nat 4%nat.

Definition payload0 : Payload := {| StateDiffRlp := [192%N] |}.
Definition payload1 : Payload := {| StateDiffRlp := [193%N] |}.

Definition twoSubscribers : world :=
  {| sds := {| Mutex := false; QuitChan := 0%nat;
               Subscriptions := {[ "a"%string := subA; "b"%string := subB ]};
               subscribers := 1 |};
     payloadChans := {[ 1%nat := Chan 1 [payload0] 0 [] false;
                        2%nat := make 1 ]};
     boolChans := {[ 0%nat := make 0; 3%nat := make 1; 4%nat := make 1 ]};
     logged := [] |}.

Definition twoOrder : list (rpc.ID * Subscription.t) :=
  [("a"%string, subA); ("b"%string, subB)].

(** A service with one subscriber, as [Subscribe] leaves it. *)
Definition oneSubscriber : world :=
  {| sds := {| Mutex := false; QuitChan := 0%nat;
               Subscriptions := {[ "a"%string := subA ]};
               subscribers := 1 |};
     payloadChans := {[ 1%nat := make 1 ]};
     boolChans := {[ 0%nat := make 0; 3%nat := make 1 ]};
     logged := [] |}.

Definition oneOrder : list (rpc.ID * Subscription.t) := [("a"%string, subA)].

(** The service [NewStateDiffService] returns, with the two channels a
    first subscriber brings. *)
Definition newService : world :=
  {| sds := {| Mutex := false; QuitChan := 0%nat;
               Subscriptions := ∅; subscribers := 0 |};
     payloadChans := {[ 1%nat := make 1 ]};
     boolChans := {[ 0%nat := make 0; 3%nat := make 1 ]};
     logged := [] |}.

Definition address1 : common.Address := replicate 19 0%N ++ [1%N].
Definition address2 : common.Address := replicate 19 0%N ++ [2%N].
Definition slot1 : common.Hash := replicate 31 0%N ++ [1%N].
Definition slot2 : common.Hash := replicate 31 0%N ++ [2%N].
Definition word7 : common.Hash := replicate 31 0%N ++ [7%N].
Definition word9 : common.Hash := replicate 31 0%N ++ [9%N].

Definition block1 : types.Block :=
  {| types.Root := replicate 32 17%N; types.Number := 1;
     types.Hash := replicate 32 255%N |}.

(** The first account changed two storage slots, the second none. *)
Definition modified1 {A} (account1 : A) : state.ModifiedAccount A :=
  {| state.Account := account1;
     state.Storage := {[ slot1 := word7; slot2 := word9 ]} |}.

Definition modified2 {A} (account2 : A) : state.ModifiedAccount A :=
  {| state.Account := account2; state.Storage := ∅ |}.

Definition twoAccounts {A} (account1 account2 : A) : core.StateChangeEvent A :=
  {| core.Block := block1;
     core.StateChanges :=
       {| state.ModifiedAccounts :=
            {[ address1 := modified1 account1;
               address2 := modified2 account2 ]} |} |}.

Definition twoAccountsOrder {A} (account1 account2 : A) : iteration A :=
  {| accountOrder := [(address1, modified1 account1);
                      (address2, modified2 account2)];
     storageOrder := fun a =>
       if decide (a = address1) then [(slot1, word7); (slot2, word9)] else [];
     subscriptionOrder := [] |}.

(** A stand-in for [rlp.EncodeToBytes] on accounts that are only a
    balance: like the encoder it refuses a negative number. *)
Definition encodeBalance (balance : Z) : bytes + error :=
  if balance <? 0 then inr "rlp: cannot encode negative big.Int"%string
  else inl [Z.to_N balance].

(** A stand-in for [rlp.EncodeToBytes] on diff records: the block number
    and the number of account diffs. *)
Definition encodeDiff (d : StateDiff.t bytes) : bytes + error :=
  inl [Z.to_N (StateDiff.BlockNumber d);
       N.of_nat (length (StateDiff.UpdatedAccounts d))].

(** A block that modified no account. *)
Definition emptyEvent : core.StateChangeEvent Z :=
  {| core.Block := block1;
     core.StateChanges := {| state.ModifiedAccounts := ∅ |} |}.

Definition emptyOrder : iteration Z :=
  {| accountOrder := []; storageOrder := fun _ => [];
     subscriptionOrder := oneOrder |}.

(** Blocks that modified one account each, with the subscriber of
    [oneSubscriber] registered. *)
Definition oneAccount (number balance : Z) : core.StateChangeEvent Z :=
  {| core.Block := {| types.Root := replicate 32 17%N; types.Number := number;
                      types.Hash := replicate 32 (Z.to_N number) |};
     core.StateChanges :=
       {| state.ModifiedAccounts :=
            {[ address1 := {| state.Account := balance; state.Storage := ∅ |} ]} |} |}.

Definition oneAccountOrder (balance : Z) : iteration Z :=
  {| accountOrder := [(address1, {| state.Account := balance; state.Storage := ∅ |})];
     storageOrder := fun _ => [];
     subscriptionOrder := oneOrder |}.

(** [oneSubscriber] with a payload sink of capacity three. *)
Definition roomySubscriber : world :=
  {| sds := sds oneSubscriber;
     payloadChans := {[ 1%nat := make 3 ]};
     boolChans := boolChans oneSubscriber;
     logged := [] |}.

(** A block that modified one storage slot of one account. *)
Definition oneSlot : core.StateChangeEvent Z :=
  {| core.Block := block1;
     core.StateChanges :=
       {| state.ModifiedAccounts :=
            {[ address1 := {| state.Account := 5;
                              state.Storage := {[ slot1 := word7 ]} |} ]} |} |}.

Definition oneSlotOrder : iteration Z :=
  {| accountOrder := [(address1, {| state.Account := 5;
                                    state.Storage := {[ slot1 := word7 ]} |})];
     storageOrder := fun _ => [(slot1, word7)];
     subscriptionOrder := [] |}.

(** * Properties *)

(** ** Running the registry operations *)

Lemma Subscribe_run (w : world) (id : rpc.ID) (sub quitChan : ref) :
  Mutex (sds w) = false →
  Subscribe id sub quitChan w =
    Done tt (withService
      {| Mutex := false; QuitChan := QuitChan (sds w);
         Subscriptions :=
           <[id := Subscription.mk sub quitChan]> (Subscriptions (sds w));
         subscribers := (CompareAndSwapInt32 (subscribers (sds w)) 0 1).2 |} w).
Proof.
  destruct w as [[mu qc subs n] P B lg]; simpl; intros ->.
  reflexivity.
Qed.

Lemma Unsubscribe_present (w : world) (id : rpc.ID) (sub : Subscription.t) :
  Mutex (sds w) = false →
  Subscriptions (sds w) !! id = Some sub →
  Unsubscribe id w =
    Done None (withService
      {| Mutex := false; QuitChan := QuitChan (sds w);
         Subscriptions := delete id (Subscriptions (sds w));
         subscribers :=
           resetFlag (delete id (Subscriptions (sds w))) (subscribers (sds w)) |} w).
Proof.
  destruct w as [[mu qc subs n] P B lg]; simpl; intros -> Hin.
  unfold Unsubscribe, bind, Lock, getService, setService, resetFlag; simpl.
  rewrite Hin; simpl.
  destruct (size (delete id subs) =? 0)%nat; reflexivity.
Qed.

Lemma Unsubscribe_absent (w : world) (id : rpc.ID) :
  Mutex (sds w) = false →
  Subscriptions (sds w) !! id = None →
  Unsubscribe id w =
    Done (Some ("cannot unsubscribe; subscription for id " +:+ id +:+
                " does not exist")%string)
         (withService (withMutex true (sds w)) w).
Proof.
  destruct w as [[mu qc subs n] P B lg]; simpl; intros -> Hin.
  unfold Unsubscribe, bind, Lock, getService, setService; simpl.
  rewrite Hin; reflexivity.
Qed.

(** A held mutex parks every registry operation. *)
Lemma Lock_held (w : world) : Mutex (sds w) = true → Lock w = Blocked w.
Proof.
  destruct w as [[mu qc subs n] P B lg]; simpl; intros ->. reflexivity.
Qed.

Lemma Unsubscribe_held (w : world) (id : rpc.ID) :
  Mutex (sds w) = true → Unsubscribe id w = Blocked w.
Proof.
  intros H. unfold Unsubscribe, bind. rewrite (Lock_held w H). reflexivity.
Qed.

(** ** Loops over the registry *)

Lemma bind_Done {A B} (m : M A) (k : A → M B) (w : world) (b : B) (w' : world) :
  bind m k w = Done b w' ↔ ∃ a w1, m w = Done a w1 ∧ k a w1 = Done b w'.
Proof.
  unfold bind. split.
  - destruct (m w) as [a w1 | p | w1]; try discriminate. eauto.
  - intros (a & w1 & -> & Hk). exact Hk.
Qed.

Lemma forEach_app {A} (l1 l2 : list A) (body : A → M unit) (w : world) :
  forEach (l1 ++ l2) body w = bind (forEach l1 body) (fun _ => forEach l2 body) w.
Proof.
  revert w. induction l1 as [| x l1 IH]; intros w; simpl.
  - reflexivity.
  - unfold bind in *. destruct (body x w) as [[] w1 | p | w1]; auto.
Qed.

Lemma chansend_nb_Sent_open {A} (ch : option (chan A)) (v : A) (c : chan A) :
  chansend_nb ch v = Sent c → closed c = false.
Proof.
  unfold chansend_nb. destruct ch as [c0 |]; [| discriminate].
  destruct (closed c0); [discriminate |].
  destruct (0 <? recvq c0)%nat; [intros [= <-]; reflexivity |].
  destruct (length (buf c0) <? cap c0)%nat; [intros [= <-]; reflexivity |].
  discriminate.
Qed.

Lemma chansend_nb_open {A} (h : gmap ref (chan A)) (r : ref) (v : A) :
  open_at h r → chansend_nb (h !! r) v ≠ SendPanics.
Proof.
  unfold open_at, chansend_nb. intros Hopen.
  destruct (h !! r) as [c |]; [| discriminate].
  rewrite (Hopen c eq_refl).
  destruct (0 <? recvq c)%nat; [discriminate |].
  destruct (length (buf c) <? cap c)%nat; discriminate.
Qed.

(** What an accepted value does to the channel. *)
Lemma chansend_nb_Sent_elem {A} (ch : option (chan A)) (v : A) (c : chan A) :
  chansend_nb ch v = Sent c → v ∈ accepted c.
Proof.
  unfold chansend_nb, accepted. destruct ch as [c0 |]; [| discriminate].
  destruct (closed c0); [discriminate |].
  destruct (0 <? recvq c0)%nat.
  - intros [= <-]; simpl. set_solver.
  - destruct (length (buf c0) <? cap c0)%nat; [| discriminate].
    intros [= <-]; simpl. set_solver.
Qed.

Lemma chansend_nb_Sent_accepted {A} (c0 : chan A) (v : A) (c : chan A) :
  chan_ok c0 →
  chansend_nb (Some c0) v = Sent c →
  accepted c = accepted c0 ++ [v] ∧ chan_ok c.
Proof.
  unfold chansend_nb, accepted, chan_ok. intros Hok.
  destruct (closed c0); [discriminate |].
  destruct (0 <? recvq c0)%nat eqn:Hq.
  - intros [= <-]; simpl. apply Nat.ltb_lt in Hq.
    rewrite (Hok Hq), !app_nil_r. auto.
  - destruct (length (buf c0) <? cap c0)%nat; [| discriminate].
    intros [= <-]; simpl. apply Nat.ltb_ge in Hq.
    rewrite app_assoc. split; [reflexivity | lia].
Qed.

(** A full channel with no parked receiver is not ready. *)
Lemma chansend_nb_full {A} (c0 : chan A) (v : A) :
  closed c0 = false → recvq c0 = 0%nat → (cap c0 ≤ length (buf c0))%nat →
  chansend_nb (Some c0) v = NotReady.
Proof.
  unfold chansend_nb. intros -> -> Hfull. simpl.
  destruct (length (buf c0) <? cap c0)%nat eqn:Hlt; [| reflexivity].
  apply Nat.ltb_lt in Hlt. lia.
Qed.

Lemma signal_open (h : gmap ref (chan bool)) (r r' : ref) :
  open_at h r' → open_at (signal h r) r'.
Proof.
  unfold signal. intros Hopen.
  destruct (chansend_nb (h !! r) true) as [c | |] eqn:Hs; try exact Hopen.
  intros c'. destruct (decide (r = r')) as [<- | Hne].
  - rewrite lookup_insert_eq. intros [= <-].
    eapply chansend_nb_Sent_open, Hs.
  - rewrite lookup_insert_ne by done. apply Hopen.
Qed.

(** One turn of the loop of [send]. *)
Lemma offer_Done (payload : Payload) (id : rpc.ID) (sub : Subscription.t)
    (w w2 : world) :
  offer payload (id, sub) w = Done tt w2 →
  Mutex (sds w2) = Mutex (sds w) ∧ QuitChan (sds w2) = QuitChan (sds w) ∧
  subscribers (sds w2) = subscribers (sds w) ∧ logged w2 = logged w ∧
  match chansend_nb (payloadChans w !! Subscription.PayloadChan sub) payload with
  | Sent c =>
      payloadChans w2 = <[Subscription.PayloadChan sub := c]> (payloadChans w) ∧
      boolChans w2 = boolChans w ∧
      Subscriptions (sds w2) = Subscriptions (sds w)
  | NotReady =>
      payloadChans w2 = payloadChans w ∧
      boolChans w2 = signal (boolChans w) (Subscription.QuitChan sub) ∧
      Subscriptions (sds w2) = delete id (Subscriptions (sds w))
  | SendPanics => False
  end.
Proof.
  destruct w as [[mu qc subs n] P B lg]; destruct sub as [pc q].
  unfold offer, bind, trySendPayload, trySendBool, updSubscriptions, setService,
    signal; simpl.
  destruct (chansend_nb (P !! pc) payload) as [c | |]; simpl.
  - intros [= <-]; simpl. auto 10.
  - destruct (chansend_nb (B !! q) true) as [c | |]; simpl;
      [intros [= <-]; simpl; auto 10 | intros [= <-]; simpl; auto 10 | discriminate].
  - discriminate.
Qed.

Lemma offer_total (payload : Payload) (id : rpc.ID) (sub : Subscription.t)
    (w : world) :
  open_at (payloadChans w) (Subscription.PayloadChan sub) →
  open_at (boolChans w) (Subscription.QuitChan sub) →
  ∃ w2, offer payload (id, sub) w = Done tt w2.
Proof.
  intros Hp Hq.
  pose proof (chansend_nb_open _ _ payload Hp) as Hp'.
  pose proof (chansend_nb_open _ _ true Hq) as Hq'.
  destruct w as [[mu qc subs n] P B lg]; destruct sub as [pc q].
  unfold offer, bind, trySendPayload, trySendBool, updSubscriptions, setService;
    simpl in *.
  destruct (chansend_nb (P !! pc) payload) as [c | |]; simpl; eauto; [| done].
  destruct (chansend_nb (B !! q) true) as [c | |]; simpl; eauto; done.
Qed.

(** One turn of the loop of [close]. *)
Lemma cancel_Done (id : rpc.ID) (sub : Subscription.t) (w w2 : world) :
  cancel (id, sub) w = Done tt w2 →
  Mutex (sds w2) = Mutex (sds w) ∧ QuitChan (sds w2) = QuitChan (sds w) ∧
  subscribers (sds w2) = subscribers (sds w) ∧ logged w2 = logged w ∧
  payloadChans w2 = payloadChans w ∧
  boolChans w2 = signal (boolChans w) (Subscription.QuitChan sub) ∧
  Subscriptions (sds w2) = delete id (Subscriptions (sds w)).
Proof.
  destruct w as [[mu qc subs n] P B lg]; destruct sub as [pc q].
  unfold cancel, bind, trySendBool, updSubscriptions, setService, signal; simpl.
  destruct (chansend_nb (B !! q) true) as [c | |]; simpl;
    [intros [= <-]; simpl; auto 10 | intros [= <-]; simpl; auto 10 | discriminate].
Qed.

Lemma cancel_total (id : rpc.ID) (sub : Subscription.t) (w : world) :
  open_at (boolChans w) (Subscription.QuitChan sub) →
  ∃ w2, cancel (id, sub) w = Done tt w2.
Proof.
  intros Hq. pose proof (chansend_nb_open _ _ true Hq) as Hq'.
  destruct w as [[mu qc subs n] P B lg]; destruct sub as [pc q].
  unfold cancel, bind, trySendBool, updSubscriptions, setService; simpl in *.
  destruct (chansend_nb (B !! q) true) as [c | |]; simpl; eauto; done.
Qed.

Lemma insert_Sent_open {A} (h : gmap ref (chan A)) (r r' : ref) (v : A) (c : chan A) :
  chansend_nb (h !! r) v = Sent c → open_at h r' → open_at (<[r := c]> h) r'.
Proof.
  intros Hs Hopen c'. destruct (decide (r = r')) as [<- | Hne].
  - rewrite lookup_insert_eq. intros [= <-]. eapply chansend_nb_Sent_open, Hs.
  - rewrite lookup_insert_ne by done. apply Hopen.
Qed.

Lemma offer_open (payload : Payload) (entry : rpc.ID * Subscription.t)
    (w w2 : world) :
  offer payload entry w = Done tt w2 →
  (∀ r, open_at (payloadChans w) r → open_at (payloadChans w2) r) ∧
  (∀ r, open_at (boolChans w) r → open_at (boolChans w2) r).
Proof.
  destruct entry as [id sub]. intros H.
  apply offer_Done in H as (_ & _ & _ & _ & H).
  destruct (chansend_nb _ payload) as [c | |] eqn:Hs; [| | done].
  - destruct H as (-> & -> & _). split; [| done].
    intros r. by apply insert_Sent_open with payload.
  - destruct H as (-> & -> & _). split; [done |].
    intros r. apply signal_open.
Qed.

Lemma cancel_open (entry : rpc.ID * Subscription.t) (w w2 : world) :
  cancel entry w = Done tt w2 →
  ∀ r, open_at (boolChans w) r → open_at (boolChans w2) r.
Proof.
  destruct entry as [id sub]. intros H.
  apply cancel_Done in H as (_ & _ & _ & _ & _ & -> & _).
  intros r. apply signal_open.
Qed.

Lemma forEach_offer_total (payload : Payload) (l : list (rpc.ID * Subscription.t))
    (w : world) :
  sinks_open w l → ∃ w', forEach l (offer payload) w = Done tt w'.
Proof.
  revert w. induction l as [| [id sub] l IH]; intros w Hopen; cbn [forEach].
  - by eexists.
  - destruct (Hopen id sub) as [Hp Hq]; [set_solver |].
    destruct (offer_total payload id sub w Hp Hq) as [w2 Hw2].
    unfold bind. rewrite Hw2.
    apply IH. intros id' sub' Hin.
    destruct (offer_open _ _ _ _ Hw2) as [HP HB].
    destruct (Hopen id' sub') as [Hp' Hq']; [set_solver |]. auto.
Qed.

Lemma forEach_cancel_total (l : list (rpc.ID * Subscription.t)) (w : world) :
  (∀ id sub, (id, sub) ∈ l → open_at (boolChans w) (Subscription.QuitChan sub)) →
  ∃ w', forEach l cancel w = Done tt w'.
Proof.
  revert w. induction l as [| [id sub] l IH]; intros w Hopen; cbn [forEach].
  - by eexists.
  - destruct (cancel_total id sub w) as [w2 Hw2]; [apply (Hopen id); set_solver |].
    unfold bind. rewrite Hw2.
    apply IH. intros id' sub' Hin.
    apply (cancel_open _ _ _ Hw2). apply (Hopen id'). set_solver.
Qed.

(** What the loop of [send] leaves alone. *)
Lemma forEach_offer_frame (payload : Payload) (l : list (rpc.ID * Subscription.t))
    (w w' : world) :
  forEach l (offer payload) w = Done tt w' →
  Mutex (sds w') = Mutex (sds w) ∧ QuitChan (sds w') = QuitChan (sds w) ∧
  subscribers (sds w') = subscribers (sds w) ∧ logged w' = logged w ∧
  (∀ id, id ∉ l.*1 →
     Subscriptions (sds w') !! id = Subscriptions (sds w) !! id) ∧
  (∀ id sub, Subscriptions (sds w') !! id = Some sub →
     Subscriptions (sds w) !! id = Some sub) ∧
  (∀ r, r ∉ Subscription.PayloadChan <$> l.*2 →
     payloadChans w' !! r = payloadChans w !! r).
Proof.
  revert w. induction l as [| [id sub] l IH]; intros w; cbn [forEach].
  - intros [= <-]. auto 10.
  - intros H. apply bind_Done in H as ([] & w2 & H2 & Hrest).
    apply IH in Hrest as (-> & -> & -> & -> & HS & HS' & HP).
    apply offer_Done in H2 as (-> & -> & -> & -> & H2).
    do 4 (split; [reflexivity |]).
    destruct (chansend_nb _ payload) as [c | |] eqn:Hs; [| | done].
    + destruct H2 as (HP2 & _ & HS2). rewrite HS2 in *. rewrite HP2 in *.
      split; [| split].
      * intros id' [_ Hid']%not_elem_of_cons. by apply HS.
      * done.
      * intros r [Hne Hr]%not_elem_of_cons. rewrite HP by done.
        by apply lookup_insert_ne.
    + destruct H2 as (HP2 & _ & HS2). rewrite HS2 in *. rewrite HP2 in *.
      split; [| split].
      * intros id' [Hne Hid']%not_elem_of_cons. rewrite HS by done.
        by apply lookup_delete_ne.
      * intros id' sub' Hin. apply HS' in Hin.
        apply lookup_delete_Some in Hin. tauto.
      * intros r [_ Hr]%not_elem_of_cons. by apply HP.
Qed.

Lemma deleteAll_lookup (l : list (rpc.ID * Subscription.t))
    (m : gmap rpc.ID Subscription.t) (id : rpc.ID) :
  deleteAll l m !! id = if decide (id ∈ l.*1) then None else m !! id.
Proof.
  unfold deleteAll. revert m.
  induction l as [| [id' sub] l IH]; intros m; cbn [foldl fmap list_fmap fst].
  - rewrite decide_False; [done | apply not_elem_of_nil].
  - rewrite IH. destruct (decide (id = id')) as [-> | Hne].
    + rewrite lookup_delete_eq. rewrite (decide_True (P := id' ∈ id' :: l.*1)).
      * by case_decide.
      * apply elem_of_cons; auto.
    + rewrite lookup_delete_ne by done.
      destruct (decide (id ∈ l.*1)) as [Hin | Hin].
      * rewrite decide_True; [done | apply elem_of_cons; auto].
      * rewrite decide_False; [done |].
        intros [? | ?]%elem_of_cons; done.
Qed.

Lemma deleteAll_ranges (l : list (rpc.ID * Subscription.t))
    (m : gmap rpc.ID Subscription.t) :
  ranges m l → deleteAll l m = ∅.
Proof.
  unfold ranges. intros Hl. apply map_empty. intros id.
  rewrite deleteAll_lookup. case_decide as Hin; [done |].
  destruct (m !! id) as [sub |] eqn:Hm; [| done].
  exfalso. apply Hin. apply list_elem_of_fmap. exists (id, sub). split; [done |].
  rewrite Hl. by apply elem_of_map_to_list.
Qed.

(** The loop of [close]. *)
Lemma forEach_cancel_Done (l : list (rpc.ID * Subscription.t)) (w w' : world) :
  forEach l cancel w = Done tt w' →
  Mutex (sds w') = Mutex (sds w) ∧ QuitChan (sds w') = QuitChan (sds w) ∧
  subscribers (sds w') = subscribers (sds w) ∧ logged w' = logged w ∧
  payloadChans w' = payloadChans w ∧
  boolChans w' = signalAll l (boolChans w) ∧
  Subscriptions (sds w') = deleteAll l (Subscriptions (sds w)).
Proof.
  revert w. induction l as [| [id sub] l IH]; intros w; cbn [forEach].
  - intros [= <-]. auto 10.
  - intros H. apply bind_Done in H as ([] & w2 & H2 & Hrest).
    apply IH in Hrest as (-> & -> & -> & -> & -> & -> & ->).
    apply cancel_Done in H2 as (-> & -> & -> & -> & -> & -> & ->).
    auto 10.
Qed.

(** ** [send] *)

Lemma send_run (order : list (rpc.ID * Subscription.t)) (payload : Payload)
    (w w1 : world) :
  Mutex (sds w) = false →
  forEach order (offer payload) (locked w) = Done tt w1 →
  send order payload w = Done tt (afterSend w1).
Proof.
  intros Hmu Hloop. unfold send, bind at 1.
  replace (Lock w) with (Done tt (locked w)).
  2: { destruct w as [[mu qc subs n] P B lg]; simpl in *; subst; reflexivity. }
  unfold bind at 1. rewrite Hloop.
  destruct w1 as [[mu1 qc1 subs1 n1] P1 B1 lg1].
  unfold afterSend, resetFlag, bind, getService, casSubscribers, Unlock,
    setService; simpl.
  destruct (size subs1 =? 0)%nat; reflexivity.
Qed.

Lemma send_inv (order : list (rpc.ID * Subscription.t)) (payload : Payload)
    (w w' : world) :
  send order payload w = Done tt w' →
  Mutex (sds w) = false ∧
  ∃ w1, forEach order (offer payload) (locked w) = Done tt w1 ∧ w' = afterSend w1.
Proof.
  intros H. destruct (Mutex (sds w)) eqn:Hmu.
  - unfold send, bind in H. rewrite (Lock_held w Hmu) in H. discriminate.
  - split; [reflexivity |].
    destruct (forEach order (offer payload) (locked w)) as [[] w1 | p | w1] eqn:Hloop.
    + exists w1. split; [reflexivity |].
      rewrite (send_run _ _ _ _ Hmu Hloop) in H. congruence.
    + exfalso. unfold send, bind at 1 in H.
      replace (Lock w) with (Done tt (locked w)) in H.
      2: { destruct w as [[mu qc subs n] P B lg]; simpl in *; subst; reflexivity. }
      unfold bind at 1 in H. rewrite Hloop in H. discriminate.
    + exfalso. unfold send, bind at 1 in H.
      replace (Lock w) with (Done tt (locked w)) in H.
      2: { destruct w as [[mu qc subs n] P B lg]; simpl in *; subst; reflexivity. }
      unfold bind at 1 in H. rewrite Hloop in H. discriminate.
Qed.

Lemma ranges_NoDup (m : gmap rpc.ID Subscription.t)
    (order : list (rpc.ID * Subscription.t)) :
  ranges m order → NoDup order.*1.
Proof.
  unfold ranges. intros ->. apply NoDup_fst_map_to_list.
Qed.

Lemma ranges_elem (m : gmap rpc.ID Subscription.t)
    (order : list (rpc.ID * Subscription.t)) (id : rpc.ID) (sub : Subscription.t) :
  ranges m order → (id, sub) ∈ order ↔ m !! id = Some sub.
Proof.
  unfold ranges. intros ->. apply elem_of_map_to_list.
Qed.

(** The turn of one entry within a completed loop of [send]. *)
Lemma send_turn (payload : Payload) (m : gmap rpc.ID Subscription.t)
    (before after : list (rpc.ID * Subscription.t)) (id : rpc.ID)
    (sub : Subscription.t) (w0 wl : world) :
  Subscriptions (sds w0) = m →
  ranges m (before ++ (id, sub) :: after) →
  forEach (before ++ (id, sub) :: after) (offer payload) w0 = Done tt wl →
  ∃ w1 w2,
    forEach before (offer payload) w0 = Done tt w1 ∧
    offer payload (id, sub) w1 = Done tt w2 ∧
    forEach after (offer payload) w2 = Done tt wl ∧
    match chansend_nb (payloadChans w1 !! Subscription.PayloadChan sub) payload with
    | Sent c =>
        payloadChans w2 = <[Subscription.PayloadChan sub := c]> (payloadChans w1) ∧
        payload ∈ accepted c ∧
        boolChans w2 = boolChans w1 ∧
        Subscriptions (sds wl) !! id = Some sub
    | NotReady =>
        payloadChans w2 = payloadChans w1 ∧
        boolChans w2 = signal (boolChans w1) (Subscription.QuitChan sub) ∧
        Subscriptions (sds wl) !! id = None
    | SendPanics => False
    end.
Proof.
  intros Hm Hr Hloop.
  pose proof (ranges_NoDup _ _ Hr) as Hnd.
  rewrite fmap_app, fmap_cons in Hnd. cbn [fst] in Hnd.
  apply NoDup_app in Hnd as (_ & Hbefore & [Hafter _]%NoDup_cons).
  assert (id ∉ before.*1) as Hidb.
  { intros Hin. apply (Hbefore id Hin). apply elem_of_cons; auto. }
  assert (m !! id = Some sub) as Hid.
  { apply (ranges_elem _ _ _ _ Hr), elem_of_app. right. apply elem_of_cons; auto. }
  rewrite forEach_app in Hloop.
  apply bind_Done in Hloop as ([] & w1 & H1 & Hloop). cbn [forEach] in Hloop.
  apply bind_Done in Hloop as ([] & w2 & H2 & H3).
  exists w1, w2. do 3 (split; [assumption |]).
  pose proof (forEach_offer_frame _ _ _ _ H1) as (_ & _ & _ & _ & HS1 & _).
  pose proof (forEach_offer_frame _ _ _ _ H3) as (_ & _ & _ & _ & HS3 & _).
  apply offer_Done in H2 as (_ & _ & _ & _ & H2).
  destruct (chansend_nb _ payload) as [c | |] eqn:Hs; [| | done].
  - destruct H2 as (-> & -> & HS2). do 3 (split; [eauto using chansend_nb_Sent_elem |]).
    rewrite HS3, HS2, HS1, Hm by done. exact Hid.
  - destruct H2 as (-> & -> & HS2). do 2 (split; [reflexivity |]).
    rewrite HS3, HS2 by done. apply lookup_delete_eq.
Qed.

Lemma unshared_notin (m : gmap rpc.ID Subscription.t) (id : rpc.ID)
    (sub : Subscription.t) (l : list (rpc.ID * Subscription.t)) :
  unshared m id sub →
  (∀ e, e ∈ l → m !! e.1 = Some e.2) → id ∉ l.*1 →
  Subscription.PayloadChan sub ∉ Subscription.PayloadChan <$> l.*2.
Proof.
  intros Hun Hl Hid Hin.
  apply list_elem_of_fmap in Hin as (sub' & Heq & Hin).
  apply list_elem_of_fmap in Hin as ([id' sub''] & -> & Hin). cbn [snd] in Heq.
  apply (Hun id' sub''); [exact (Hl _ Hin) | | congruence].
  intros ->. apply Hid. apply list_elem_of_fmap. by exists (id, sub'').
Qed.

(** An entry with a payload sink of its own, after a completed loop of
    [send]: the sink was as it is in [w] when the entry's turn came. *)
Lemma send_own_sink (payload : Payload) (order : list (rpc.ID * Subscription.t))
    (w wl : world) (id : rpc.ID) (sub : Subscription.t) :
  ranges (Subscriptions (sds w)) order →
  forEach order (offer payload) (locked w) = Done tt wl →
  Subscriptions (sds w) !! id = Some sub →
  unshared (Subscriptions (sds w)) id sub →
  match chansend_nb (payloadChans w !! Subscription.PayloadChan sub) payload with
  | Sent c =>
      Subscriptions (sds wl) !! id = Some sub ∧
      payloadChans wl !! Subscription.PayloadChan sub = Some c
  | NotReady =>
      Subscriptions (sds wl) !! id = None ∧
      payloadChans wl !! Subscription.PayloadChan sub =
        payloadChans w !! Subscription.PayloadChan sub
  | SendPanics => False
  end.
Proof.
  intros Hr Hloop Hid Hun.
  pose proof Hid as Hin. apply (ranges_elem _ _ _ _ Hr) in Hin.
  apply list_elem_of_split in Hin as (before & after & Horder).
  subst order.
  destruct (send_turn payload (Subscriptions (sds w)) before after id sub
              (locked w) wl eq_refl Hr Hloop)
    as (w1 & w2 & H1 & H2 & H3 & Hcase).
  pose proof (ranges_NoDup _ _ Hr) as Hnd.
  rewrite fmap_app, fmap_cons in Hnd. cbn [fst] in Hnd.
  apply NoDup_app in Hnd as (_ & Hbefore & [Hafter _]%NoDup_cons).
  assert (∀ e, e ∈ before ++ (id, sub) :: after →
               Subscriptions (sds w) !! e.1 = Some e.2) as Hall.
  { intros [id' sub'] He. by apply (ranges_elem _ _ _ _ Hr). }
  pose proof (forEach_offer_frame _ _ _ _ H1) as (_ & _ & _ & _ & _ & _ & HP1).
  pose proof (forEach_offer_frame _ _ _ _ H3) as (_ & _ & _ & _ & _ & _ & HP3).
  assert (payloadChans w1 !! Subscription.PayloadChan sub =
          payloadChans w !! Subscription.PayloadChan sub) as E1.
  { rewrite HP1; [reflexivity |].
    apply (unshared_notin (Subscriptions (sds w)) id); [done | |].
    - intros e He. apply Hall. apply elem_of_app; auto.
    - intros Hb. apply (Hbefore id Hb). apply elem_of_cons; auto. }
  assert (payloadChans wl !! Subscription.PayloadChan sub =
          payloadChans w2 !! Subscription.PayloadChan sub) as E3.
  { apply HP3.
    apply (unshared_notin (Subscriptions (sds w)) id); [done | | done].
    intros e He. apply Hall. apply elem_of_app. right.
    apply elem_of_cons; auto. }
  rewrite E1 in Hcase.
  destruct (chansend_nb _ payload) as [c | |]; [| | done].
  - destruct Hcase as (HP2 & _ & _ & HS). split; [exact HS |].
    rewrite E3, HP2. apply lookup_insert_eq.
  - destruct Hcase as (HP2 & _ & HS). split; [exact HS |].
    rewrite E3, HP2. exact E1.
Qed.

(** C1. [send] offers the payload to every entry of the registry, each in
    its turn, without blocking.  It returns whenever the mutex is free and
    no sink of an entry has been closed.  When it returns, every entry
    whose payload sink was not ready at its turn has been offered the quit
    signal, again without blocking, and is gone from the registry whether
    or not the signal went through; every entry whose sink took the payload
    is still registered and its sink holds the payload.  In particular an
    entry whose own sink is full is evicted, and an entry whose own sink
    accepts the payload stays and receives it; no entry is added. *)
Theorem send_fans_out (w : world) (payload : Payload)
    (order : list (rpc.ID * Subscription.t)) :
  Mutex (sds w) = false →
  ranges (Subscriptions (sds w)) order →
  (sinks_open w order → ∃ w', send order payload w = Done tt w') ∧
  ∀ w', send order payload w = Done tt w' →
    (∀ before id sub after, order = before ++ (id, sub) :: after →
       ∃ w1 w2,
         forEach before (offer payload) (locked w) = Done tt w1 ∧
         offer payload (id, sub) w1 = Done tt w2 ∧
         match chansend_nb (payloadChans w1 !! Subscription.PayloadChan sub)
                           payload with
         | Sent c =>
             payloadChans w2 =
               <[Subscription.PayloadChan sub := c]> (payloadChans w1) ∧
             payload ∈ accepted c ∧
             boolChans w2 = boolChans w1 ∧
             Subscriptions (sds w') !! id = Some sub
         | NotReady =>
             payloadChans w2 = payloadChans w1 ∧
             boolChans w2 = signal (boolChans w1) (Subscription.QuitChan sub) ∧
             Subscriptions (sds w') !! id = None
         | SendPanics => False
         end) ∧
    (∀ id sub, Subscriptions (sds w) !! id = Some sub →
       unshared (Subscriptions (sds w)) id sub →
       match chansend_nb (payloadChans w !! Subscription.PayloadChan sub)
                         payload with
       | Sent c =>
           Subscriptions (sds w') !! id = Some sub ∧
           payloadChans w' !! Subscription.PayloadChan sub = Some c
       | NotReady =>
           Subscriptions (sds w') !! id = None ∧
           payloadChans w' !! Subscription.PayloadChan sub =
             payloadChans w !! Subscription.PayloadChan sub
       | SendPanics => False
       end) ∧
    (∀ id sub c0, Subscriptions (sds w) !! id = Some sub →
       unshared (Subscriptions (sds w)) id sub →
       payloadChans w !! Subscription.PayloadChan sub = Some c0 →
       closed c0 = false → recvq c0 = 0%nat → (cap c0 ≤ length (buf c0))%nat →
       Subscriptions (sds w') !! id = None) ∧
    (∀ id, Subscriptions (sds w) !! id = None →
       Subscriptions (sds w') !! id = None) ∧
    Mutex (sds w') = false.
Proof.
  intros Hmu Hr. split.
  { intros Hopen.
    destruct (forEach_offer_total payload order (locked w)) as [w1 Hw1].
    { exact Hopen. }
    eexists. by apply send_run. }
  intros w' Hsend.
  apply send_inv in Hsend as (_ & wl & Hloop & ->).
  split; [| split; [| split; [| split]]].
  - intros before id sub after Horder. subst order.
    destruct (send_turn payload (Subscriptions (sds w)) before after id sub
                (locked w) wl eq_refl Hr Hloop)
      as (w1 & w2 & H1 & H2 & _ & Hcase).
    exists w1, w2. auto.
  - intros id sub Hid Hun.
    exact (send_own_sink payload order w wl id sub Hr Hloop Hid Hun).
  - intros id sub c0 Hid Hun Hc0 Hcl Hq Hfull.
    pose proof (send_own_sink payload order w wl id sub Hr Hloop Hid Hun) as Hown.
    rewrite Hc0 in Hown.
    rewrite (chansend_nb_full c0 payload Hcl Hq Hfull) in Hown. tauto.
  - intros id Hid.
    pose proof (forEach_offer_frame _ _ _ _ Hloop) as (_ & _ & _ & _ & _ & HS & _).
    destruct (Subscriptions (sds (afterSend wl)) !! id) as [sub |] eqn:E; [| done].
    apply HS in E. cbn in E. congruence.
  - reflexivity.
Qed.

(** ** [close] and [Stop] *)

Lemma Lock_free (w : world) : Mutex (sds w) = false → Lock w = Done tt (locked w).
Proof.
  destruct w as [[mu qc subs n] P B lg]; simpl; intros ->. reflexivity.
Qed.

Lemma close_run (order : list (rpc.ID * Subscription.t)) (w w1 : world) :
  Mutex (sds w) = false →
  forEach order cancel (locked w) = Done tt w1 →
  close order w = Done tt (withService (withMutex false (sds w1)) w1).
Proof.
  intros Hmu Hloop. unfold close, bind at 1. rewrite (Lock_free w Hmu).
  unfold bind. rewrite Hloop. reflexivity.
Qed.

Lemma close_inv (order : list (rpc.ID * Subscription.t)) (w w' : world) :
  close order w = Done tt w' →
  Mutex (sds w) = false ∧
  ∃ w1, forEach order cancel (locked w) = Done tt w1 ∧
        w' = withService (withMutex false (sds w1)) w1.
Proof.
  intros H. destruct (Mutex (sds w)) eqn:Hmu.
  - unfold close, bind in H. rewrite (Lock_held w Hmu) in H. discriminate.
  - split; [reflexivity |].
    unfold close, bind at 1 in H. rewrite (Lock_free w Hmu) in H.
    unfold bind in H.
    destruct (forEach order cancel (locked w)) as [[] w1 | p | w1];
      [| discriminate | discriminate].
    exists w1. split; [reflexivity |]. unfold Unlock, setService in H.
    injection H as <-. reflexivity.
Qed.

(** When [close] returns the registry is empty, every entry has been
    offered the quit signal in its turn, the payload sinks and the flag
    are as they were. *)
Lemma close_Done (order : list (rpc.ID * Subscription.t)) (w w' : world) :
  ranges (Subscriptions (sds w)) order →
  close order w = Done tt w' →
  Subscriptions (sds w') = ∅ ∧
  boolChans w' = signalAll order (boolChans w) ∧
  payloadChans w' = payloadChans w ∧
  subscribers (sds w') = subscribers (sds w) ∧
  Mutex (sds w') = false ∧ QuitChan (sds w') = QuitChan (sds w) ∧
  logged w' = logged w.
Proof.
  intros Hr H. apply close_inv in H as (_ & w1 & Hloop & ->).
  apply forEach_cancel_Done in Hloop as (_ & Hq & Hn & Hlg & HP & HB & HS).
  cbn. rewrite HS, HB, HP, Hn, Hq, Hlg. cbn.
  split; [by apply deleteAll_ranges | auto 10].
Qed.

Lemma close_total (order : list (rpc.ID * Subscription.t)) (w : world) :
  Mutex (sds w) = false →
  (∀ id sub, (id, sub) ∈ order →
     open_at (boolChans w) (Subscription.QuitChan sub)) →
  ∃ w', close order w = Done tt w'.
Proof.
  intros Hmu Hopen.
  destruct (forEach_cancel_total order (locked w) Hopen) as [w1 Hw1].
  eexists. by apply close_run.
Qed.

(** A parked or panicking [close] stays so whatever follows it. *)
Lemma close_held (order : list (rpc.ID * Subscription.t)) (w : world) :
  Mutex (sds w) = true → close order w = Blocked w.
Proof.
  intros H. unfold close, bind. rewrite (Lock_held w H). reflexivity.
Qed.

Lemma Stop_open (w : world) (c : chan bool) :
  boolChans w !! QuitChan (sds w) = Some c → closed c = false →
  Stop w = Done None
    (withBoolChan (QuitChan (sds w)) (Chan (cap c) (buf c) 0 (taken c) true) w).
Proof.
  intros Hc Hopen. unfold Stop, bind, getService, closeBool, closechan.
  rewrite Hc, Hopen. reflexivity.
Qed.

Lemma Stop_closed (w : world) (c : chan bool) :
  boolChans w !! QuitChan (sds w) = Some c → closed c = true →
  Stop w = Panicked CloseOfClosedChannel.
Proof.
  intros Hc Hcl. unfold Stop, bind, getService, closeBool, closechan.
  rewrite Hc, Hcl. reflexivity.
Qed.

(** ** A service with two subscribers *)

Lemma twoOrder_ranges : ranges (Subscriptions (sds twoSubscribers)) twoOrder.
Proof. unfold ranges. vm_compute. reflexivity. Defined.

Lemma twoSubscribers_lookup (id : rpc.ID) (sub : Subscription.t) :
  Subscriptions (sds twoSubscribers) !! id = Some sub →
  (id = "a"%string ∧ sub = subA) ∨ (id = "b"%string ∧ sub = subB).
Proof.
  intros H. apply (ranges_elem _ _ _ _ twoOrder_ranges) in H.
  apply elem_of_cons in H as [[= -> ->] | H]; [auto |].
  apply elem_of_cons in H as [[= -> ->] | H]; [auto |].
  by apply elem_of_nil in H.
Qed.

Lemma send_fans_out_witness :
  Mutex (sds twoSubscribers) = false ∧
  ranges (Subscriptions (sds twoSubscribers)) twoOrder ∧
  ∃ w', send twoOrder payload1 twoSubscribers = Done tt w' ∧
        Subscriptions (sds w') !! "a"%string = None ∧
        Subscriptions (sds w') !! "b"%string = Some subB ∧
        payloadChans w' !! 2%nat = Some (Chan 1 [payload1] 0 [] false).
Proof.
  split; [reflexivity |]. split; [exact twoOrder_ranges |].
  destruct (send_fans_out twoSubscribers payload1 twoOrder eq_refl twoOrder_ranges)
    as [Hreturns Hthen].
  destruct Hreturns as [w' Hw'].
  { intros id sub Hin.
    apply elem_of_cons in Hin as [[= -> ->] | Hin];
      [split; intros c [= <-]; reflexivity |].
    apply elem_of_cons in Hin as [[= -> ->] | Hin];
      [split; intros c [= <-]; reflexivity |].
    by apply elem_of_nil in Hin. }
  exists w'. split; [exact Hw' |].
  destruct (Hthen w' Hw') as (_ & Hown & _).
  pose proof (Hown "a"%string subA eq_refl) as Ha.
  pose proof (Hown "b"%string subB eq_refl) as Hb.
  split; [| split].
  - apply Ha. intros id' sub' Hl Hne.
    apply twoSubscribers_lookup in Hl as [[-> ->] | [-> ->]]; done.
  - apply Hb. intros id' sub' Hl Hne.
    apply twoSubscribers_lookup in Hl as [[-> ->] | [-> ->]]; done.
  - apply Hb. intros id' sub' Hl Hne.
    apply twoSubscribers_lookup in Hl as [[-> ->] | [-> ->]]; done.
Defined.

(** ** The registry operations and the [subscribers] flag *)

Lemma resetFlag_agrees (subs : gmap rpc.ID Subscription.t) (flag : Z) :
  flag = 1 ∨ (flag = 0 ∧ subs = ∅) →
  (resetFlag subs flag = 1 ∧ subs ≠ ∅) ∨ (resetFlag subs flag = 0 ∧ subs = ∅).
Proof.
  unfold resetFlag, CompareAndSwapInt32. intros H.
  destruct (size subs =? 0)%nat eqn:Hsz.
  - apply Nat.eqb_eq, map_size_empty_iff in Hsz. right.
    destruct H as [-> | [-> _]]; auto.
  - apply Nat.eqb_neq in Hsz. rewrite map_size_empty_iff in Hsz.
    destruct H as [-> | [_ ->]]; [auto | done].
Qed.

(** [Subscribe], [Unsubscribe] and [send] keep the flag in step with the
    mapping. *)
Lemma Subscribe_flag (w w' : world) (id : rpc.ID) (sub quitChan : ref) :
  flag_agrees w → Subscribe id sub quitChan w = Done tt w' → flag_agrees w'.
Proof.
  intros Hinv H. destruct (Mutex (sds w)) eqn:Hmu.
  - unfold Subscribe, bind in H. simpl in H.
    unfold Lock, bind, getService in H. simpl in H. rewrite Hmu in H.
    discriminate.
  - rewrite (Subscribe_run w id sub quitChan Hmu) in H. injection H as <-.
    left. cbn. split.
    + unfold CompareAndSwapInt32.
      destruct Hinv as [[-> _] | [-> _]]; reflexivity.
    + apply insert_non_empty.
Qed.

Lemma Unsubscribe_flag (w w' : world) (id : rpc.ID) (r : option error) :
  flag_agrees w → Unsubscribe id w = Done r w' → flag_agrees w'.
Proof.
  intros Hinv H. destruct (Mutex (sds w)) eqn:Hmu.
  - rewrite (Unsubscribe_held w id Hmu) in H. discriminate.
  - destruct (Subscriptions (sds w) !! id) as [sub |] eqn:Hid.
    + rewrite (Unsubscribe_present w id sub Hmu Hid) in H. injection H as _ <-.
      unfold flag_agrees. cbn. apply resetFlag_agrees.
      destruct Hinv as [[-> _] | [_ Hempty]]; [auto |].
      rewrite Hempty in Hid. by rewrite lookup_empty in Hid.
    + rewrite (Unsubscribe_absent w id Hmu Hid) in H. injection H as _ <-.
      exact Hinv.
Qed.

Lemma send_flag (w w' : world) (order : list (rpc.ID * Subscription.t))
    (payload : Payload) :
  flag_agrees w → send order payload w = Done tt w' → flag_agrees w'.
Proof.
  intros Hinv H. apply send_inv in H as (_ & wl & Hloop & ->).
  pose proof (forEach_offer_frame _ _ _ _ Hloop) as (_ & _ & Hn & _ & _ & HS & _).
  unfold flag_agrees. cbn. apply resetFlag_agrees. rewrite Hn. cbn.
  destruct Hinv as [[-> _] | [-> Hempty]]; [auto |]. right. split; [done |].
  apply map_empty. intros id.
  destruct (Subscriptions (sds wl) !! id) as [sub |] eqn:E; [| done].
  apply HS in E. cbn in E. rewrite Hempty in E. by rewrite lookup_empty in E.
Qed.

Lemma oneSubscriber_reached :
  Subscribe "a" 1%nat 3%nat newService = Done tt oneSubscriber.
Proof. vm_compute. reflexivity. Qed.

Lemma oneOrder_ranges : ranges (Subscriptions (sds oneSubscriber)) oneOrder.
Proof. unfold ranges. vm_compute. reflexivity. Defined.

(** C5.  [close] empties the mapping and leaves the flag set: after
    [close] on a service with one subscriber the mapping is empty and
    [subscribers] is still 1, although the flag agreed with the mapping
    before the call. *)
Theorem close_leaves_flag_set :
  flag_agrees oneSubscriber ∧
  ∃ w', close oneOrder oneSubscriber = Done tt w' ∧
        Subscriptions (sds w') = ∅ ∧ subscribers (sds w') = 1 ∧
        ¬ flag_agrees w'.
Proof.
  split.
  { left. split; [reflexivity |]. apply insert_non_empty. }
  destruct (close_total oneOrder oneSubscriber eq_refl) as [w' Hw'].
  { intros id sub Hin. apply elem_of_cons in Hin as [[= -> ->] | Hin].
    - intros c [= <-]. reflexivity.
    - by apply elem_of_nil in Hin. }
  exists w'. split; [exact Hw' |].
  apply (close_Done _ _ _ oneOrder_ranges) in Hw' as (HS & _ & _ & Hn & _).
  split; [exact HS |]. split; [exact Hn |].
  unfold flag_agrees. rewrite HS, Hn. cbn. intros [[_ H] | [H _]]; done.
Qed.

(** C6.  As the code has it: on a service whose quit channel is open, a
    first [Stop] closes that channel, touches nothing else and returns no
    error; a second [Stop] then panics on closing the closed channel. *)
Theorem Stop_twice (w : world) (c : chan bool) :
  boolChans w !! QuitChan (sds w) = Some c →
  closed c = false →
  ∃ w', Stop w = Done None w' ∧
        sds w' = sds w ∧ payloadChans w' = payloadChans w ∧
        boolChans w' =
          <[QuitChan (sds w) := Chan (cap c) (buf c) 0 (taken c) true]> (boolChans w) ∧
        Stop w' = Panicked CloseOfClosedChannel.
Proof.
  intros Hc Hopen. eexists. split; [by apply Stop_open |].
  do 3 (split; [reflexivity |]).
  eapply Stop_closed; [apply lookup_insert_eq | reflexivity].
Qed.

Lemma Stop_twice_witness :
  boolChans newService !! QuitChan (sds newService) = Some (make 0) ∧
  closed (make (A := bool) 0) = false ∧
  ∃ w', Stop newService = Done None w' ∧
        Stop w' = Panicked CloseOfClosedChannel.
Proof.
  split; [reflexivity |]. split; [reflexivity |].
  destruct (Stop_twice newService (make 0) eq_refl eq_refl)
    as (w' & H1 & _ & _ & _ & H2).
  exists w'. split; assumption.
Defined.

(** C6, as stated, fails: the second of two calls of [Stop] on a new
    service does not return, neither with nor without an error. *)
Lemma Stop_twice_crashes :
  ∃ w1, Stop newService = Done None w1 ∧
        Stop w1 = Panicked CloseOfClosedChannel ∧
        ¬ ∃ r w2, Stop w1 = Done r w2.
Proof.
  exists (withBoolChan 0%nat (Chan 0 [] 0 [] true) newService).
  split; [vm_compute; reflexivity |].
  split; [vm_compute; reflexivity |].
  intros (r & w2 & H). vm_compute in H. discriminate.
Qed.

(** C7.  With the mutex free, [Unsubscribe id] on a registered [id]
    deletes its entry, leaves the others and returns no error; on an [id]
    that is not registered it returns an error and leaves the mapping and
    the flag as they were. *)
Theorem Unsubscribe_removes_or_reports (w : world) (id : rpc.ID) :
  Mutex (sds w) = false →
  (∀ sub, Subscriptions (sds w) !! id = Some sub →
     ∃ w', Unsubscribe id w = Done None w' ∧
           Subscriptions (sds w') = delete id (Subscriptions (sds w)) ∧
           Subscriptions (sds w') !! id = None ∧
           ∀ id', id' ≠ id →
             Subscriptions (sds w') !! id' = Subscriptions (sds w) !! id') ∧
  (Subscriptions (sds w) !! id = None →
     ∃ e w', Unsubscribe id w = Done (Some e) w' ∧
             Subscriptions (sds w') = Subscriptions (sds w) ∧
             subscribers (sds w') = subscribers (sds w)).
Proof.
  intros Hmu. split.
  - intros sub Hid. eexists. split; [by apply (Unsubscribe_present w id sub) |].
    cbn. split; [reflexivity |]. split; [apply lookup_delete_eq |].
    intros id' Hne. by apply lookup_delete_ne.
  - intros Hid. eexists _, _. split; [by apply Unsubscribe_absent |].
    split; reflexivity.
Qed.

Lemma Unsubscribe_removes_or_reports_witness :
  Mutex (sds oneSubscriber) = false ∧
  (∃ w', Unsubscribe "a" oneSubscriber = Done None w' ∧
         Subscriptions (sds w') !! "a"%string = None) ∧
  (∃ e w', Unsubscribe "b" oneSubscriber = Done (Some e) w' ∧
           Subscriptions (sds w') = Subscriptions (sds oneSubscriber) ∧
           subscribers (sds w') = subscribers (sds oneSubscriber)).
Proof.
  split; [reflexivity |]. split.
  - destruct (Unsubscribe_removes_or_reports oneSubscriber "a" eq_refl) as [H _].
    destruct (H subA eq_refl) as (w' & Hw' & _ & Hgone & _).
    exists w'. split; assumption.
  - destruct (Unsubscribe_removes_or_reports oneSubscriber "b" eq_refl) as [_ H].
    exact (H eq_refl).
Defined.

(** C8.  As the code has it: with the mutex free, [Subscribe id]
    followed by [Unsubscribe id] returns without error in a registry that
    is the one before the pair without [id]: the entry count is unchanged
    when [id] was not registered before, and one less when it was. *)
Theorem Subscribe_Unsubscribe_count (w : world) (id : rpc.ID) (sub quitChan : ref) :
  Mutex (sds w) = false →
  ∃ w', bind (Subscribe id sub quitChan) (fun _ => Unsubscribe id) w = Done None w' ∧
        Subscriptions (sds w') = delete id (Subscriptions (sds w)) ∧
        (Subscriptions (sds w) !! id = None →
           size (Subscriptions (sds w')) = size (Subscriptions (sds w))) ∧
        (is_Some (Subscriptions (sds w) !! id) →
           S (size (Subscriptions (sds w'))) = size (Subscriptions (sds w))).
Proof.
  intros Hmu. unfold bind at 1. rewrite (Subscribe_run w id sub quitChan Hmu).
  eexists. split.
  { eapply Unsubscribe_present; [reflexivity | apply lookup_insert_eq]. }
  cbn. rewrite delete_insert_eq. split; [reflexivity |]. split.
  - intros Hid. by rewrite delete_id.
  - intros [sub' Hid]. rewrite map_size_delete, Hid.
    assert (size (Subscriptions (sds w)) ≠ 0%nat) as Hne.
    { intros Hz. apply map_size_empty_iff in Hz. rewrite Hz in Hid.
      by rewrite lookup_empty in Hid. }
    lia.
Qed.

Lemma Subscribe_Unsubscribe_count_witness :
  Mutex (sds oneSubscriber) = false ∧
  ∃ w', bind (Subscribe "b" 2%nat 4%nat) (fun _ => Unsubscribe "b") oneSubscriber
          = Done None w' ∧
        size (Subscriptions (sds w')) = size (Subscriptions (sds oneSubscriber)).
Proof.
  split; [reflexivity |].
  destruct (Subscribe_Unsubscribe_count oneSubscriber "b" 2%nat 4%nat eq_refl)
    as (w' & Hw' & _ & Hsame & _).
  exists w'. split; [exact Hw' |]. apply Hsame. reflexivity.
Defined.

(** C8, as stated, fails: on an [id] that is registered the pair removes
    the entry, and the count goes from one to zero. *)
Lemma Subscribe_Unsubscribe_registered :
  ∃ w', bind (Subscribe "a" 1%nat 3%nat) (fun _ => Unsubscribe "a") oneSubscriber
          = Done None w' ∧
        size (Subscriptions (sds oneSubscriber)) = 1%nat ∧
        size (Subscriptions (sds w')) = 0%nat ∧
        size (Subscriptions (sds w')) ≠ size (Subscriptions (sds oneSubscriber)).
Proof.
  eexists. split; [vm_compute; reflexivity |].
  split; [reflexivity |]. split; [reflexivity |]. cbn. discriminate.
Qed.

(** ** [processStateChanges] and [Loop] *)

Section ProcessingFacts.

Context {A : Type}.
Variable EncodeAccount : A → bytes + error.
Variable EncodeStateDiff : StateDiff.t bytes → bytes + error.

Lemma rangeAccounts_error (addr : nat)
    (entries : list (common.Address * state.ModifiedAccount A))
    (storageOrder : common.Address → list (common.Hash * common.Hash))
    (accountDiffs : list (AccountDiff.t slice)) (fr : frame)
    (a : common.Address) (m : state.ModifiedAccount A) (e : error) :
  (a, m) ∈ entries →
  EncodeAccount (state.Account m) = inr e →
  ∃ e', rangeAccounts EncodeAccount addr entries storageOrder accountDiffs fr
          = inr e'.
Proof.
  revert accountDiffs fr.
  induction entries as [| [a0 m0] entries IH]; intros accountDiffs fr Hin He.
  - by apply elem_of_nil in Hin.
  - cbn [rangeAccounts].
    destruct (EncodeAccount (state.Account m0)) as [accountBytes | e0] eqn:E0;
      [| by eexists].
    apply elem_of_cons in Hin as [[= -> ->] | Hin]; [congruence |].
    destruct (rangeStorage _ _ _ _ _) as [storageDiffs fr'].
    by apply IH.
Qed.

(** C3.  When the serialization of one of the accounts fails, or the
    encoding of the assembled diff fails, [processStateChanges] returns
    that error in the world it was called in: [send] is not called, no
    sink receives anything and the registry is as before.  [Loop] logs the
    error and goes on with the cases that follow. *)
Theorem failed_event_is_skipped (stateChangeEvent : core.StateChangeEvent A)
    (it : iteration A) (rest : list (selected A)) (w : world) :
  (∃ a m e, (a, m) ∈ accountOrder it ∧
            EncodeAccount (state.Account m) = inr e) ∨
  (∃ stateDiff e, assemble EncodeAccount stateChangeEvent it = inl stateDiff ∧
                  EncodeStateDiff stateDiff = inr e) →
  ∃ err,
    processStateChanges EncodeAccount EncodeStateDiff stateChangeEvent it w
      = Done (Some err) w ∧
    Loop EncodeAccount EncodeStateDiff (EventReceived stateChangeEvent it :: rest) w
      = Loop EncodeAccount EncodeStateDiff rest
          (logging (LogError (types.Number (core.Block stateChangeEvent)) err) w).
Proof.
  intros Hfail.
  assert (∃ err,
    processStateChanges EncodeAccount EncodeStateDiff stateChangeEvent it w
      = Done (Some err) w) as [err Herr].
  { unfold processStateChanges. destruct Hfail as [(a & m & e & Hin & He) | (d & e & Hd & He)].
    - unfold assemble.
      destruct (rangeAccounts_error 0 _ (storageOrder it) [] [[]] a m e Hin He)
        as [e' ->].
      by eexists.
    - rewrite Hd, He. by eexists. }
  exists err. split; [exact Herr |].
  cbn [Loop]. unfold bind at 1. rewrite Herr. reflexivity.
Qed.

Lemma Loop_stop_rest (c : selected A) (order : list (rpc.ID * Subscription.t))
    (pre rest : list (selected A)) (w : world) :
  stopCase c = Some order →
  Loop EncodeAccount EncodeStateDiff (pre ++ c :: rest) w =
  Loop EncodeAccount EncodeStateDiff (pre ++ [c]) w.
Proof.
  intros Hc. revert w. induction pre as [| c0 pre IH]; intros w.
  - destruct c; [discriminate | reflexivity | reflexivity].
  - destruct c0 as [ev it | err o | o]; cbn [app Loop]; [| reflexivity | reflexivity].
    unfold bind.
    destruct (processStateChanges _ _ ev it w) as [[e |] w1 | p | w1];
      [| apply IH | reflexivity | reflexivity].
    destruct (log _ w1); auto.
Qed.

Lemma Loop_stop_run (c : selected A) (order : list (rpc.ID * Subscription.t))
    (rest : list (selected A)) (w : world) :
  stopCase c = Some order →
  Loop EncodeAccount EncodeStateDiff (c :: rest) w =
  bind (close order) (fun _ => ret Returned) (beforeClose c w).
Proof.
  destruct c; intros [= <-]; reflexivity.
Qed.

(** C4.  When the [select] of [Loop] takes the error case or the quit
    case, the cases queued behind it are never looked at: [Loop] does what
    it does without them.  It calls [close]; when the mutex is free and no
    quit sink has been closed, [close] returns, and whenever it returns
    the registry is empty, every entry has been offered the quit signal in
    its turn without blocking, no payload sink has been touched, and
    [Loop] has returned. *)
Theorem Loop_shutdown (c : selected A) (order : list (rpc.ID * Subscription.t))
    (rest : list (selected A)) (w : world) :
  stopCase c = Some order →
  ranges (Subscriptions (sds w)) order →
  (∀ pre w0, Loop EncodeAccount EncodeStateDiff (pre ++ c :: rest) w0 =
             Loop EncodeAccount EncodeStateDiff (pre ++ [c]) w0) ∧
  (Mutex (sds w) = false →
   (∀ id sub, (id, sub) ∈ order →
      open_at (boolChans w) (Subscription.QuitChan sub)) →
   ∃ w', Loop EncodeAccount EncodeStateDiff (c :: rest) w = Done Returned w') ∧
  (∀ st w', Loop EncodeAccount EncodeStateDiff (c :: rest) w = Done st w' →
     st = Returned ∧
     Subscriptions (sds w') = ∅ ∧
     boolChans w' = signalAll order (boolChans w) ∧
     payloadChans w' = payloadChans w).
Proof.
  intros Hc Hr. split; [| split].
  - intros pre w0. by apply Loop_stop_rest with order.
  - intros Hmu Hopen. rewrite (Loop_stop_run c order rest w Hc).
    destruct (close_total order (beforeClose c w)) as [w' Hw'].
    { destruct c; exact Hmu. }
    { destruct c; exact Hopen. }
    exists w'. unfold bind. rewrite Hw'. reflexivity.
  - intros st w'. rewrite (Loop_stop_run c order rest w Hc).
    intros H. apply bind_Done in H as ([] & w1 & Hclose & [= <- <-]).
    apply close_Done in Hclose as (HS & HB & HP & _).
    2: { destruct c; exact Hr. }
    split; [reflexivity |]. split; [exact HS |].
    rewrite HB, HP. destruct c; auto.
Qed.

End ProcessingFacts.

Section EmptyEvent.

Context {A : Type}.
Variable EncodeAccount : A → bytes + error.
Variable EncodeStateDiff : StateDiff.t bytes → bytes + error.

(** C9.  For an event that modified no account [processStateChanges]
    builds the diff record with the block number, the block hash and no
    account diffs, encodes it and calls [send] with the encoded bytes as
    the payload; with the mutex free and the sinks open it returns
    without error in the world [send] leaves. *)
Theorem empty_event_is_delivered (stateChangeEvent : core.StateChangeEvent A)
    (it : iteration A) (w : world) :
  state.ModifiedAccounts (core.StateChanges stateChangeEvent) = ∅ →
  ranges_event stateChangeEvent it →
  assemble EncodeAccount stateChangeEvent it = inl (emptyDiff stateChangeEvent) ∧
  ∀ stateDiffRlp,
    EncodeStateDiff (emptyDiff stateChangeEvent) = inl stateDiffRlp →
    processStateChanges EncodeAccount EncodeStateDiff stateChangeEvent it w =
      bind (send (subscriptionOrder it) {| StateDiffRlp := stateDiffRlp |})
           (fun _ => ret None) w ∧
    (Mutex (sds w) = false → sinks_open w (subscriptionOrder it) →
     ∃ w', send (subscriptionOrder it) {| StateDiffRlp := stateDiffRlp |} w
             = Done tt w' ∧
           processStateChanges EncodeAccount EncodeStateDiff stateChangeEvent it w
             = Done None w').
Proof.
  intros Hempty [Hr _]. unfold ranges in Hr.
  rewrite Hempty, map_to_list_empty in Hr. apply Permutation_nil_r in Hr.
  assert (assemble EncodeAccount stateChangeEvent it
            = inl (emptyDiff stateChangeEvent)) as Hassemble.
  { unfold assemble. rewrite Hr. reflexivity. }
  split; [exact Hassemble |].
  intros stateDiffRlp Henc.
  assert (processStateChanges EncodeAccount EncodeStateDiff stateChangeEvent it w =
          bind (send (subscriptionOrder it) {| StateDiffRlp := stateDiffRlp |})
               (fun _ => ret None) w) as Hrun.
  { unfold processStateChanges. rewrite Hassemble, Henc. reflexivity. }
  split; [exact Hrun |].
  intros Hmu Hopen.
  destruct (forEach_offer_total {| StateDiffRlp := stateDiffRlp |}
              (subscriptionOrder it) (locked w) Hopen) as [w1 Hw1].
  pose proof (send_run _ _ _ _ Hmu Hw1) as Hsend.
  eexists. split; [exact Hsend |].
  rewrite Hrun. unfold bind. rewrite Hsend. reflexivity.
Qed.

End EmptyEvent.

(** ** The extractor *)

Section ExtractorFacts.

Context {W D : Type}.

(** C10.  When [BuildStateDiff] returns an error, [ExtractStateDiff]
    returns the empty string and that error in the state the builder
    left, whatever the publisher is: it is not called.  When
    [BuildStateDiff] returns no error the result is that of
    [PublishStateDiff] on the diff it built. *)
Theorem ExtractStateDiff_build_error
    (BuildStateDiff :
       common.Hash → common.Hash → Z → common.Hash → W → (D * option error) * W)
    (parent current : types.Block) (w w1 : W) (stateDiff : D) :
  (∀ (PublishStateDiff : D → W → (string * option error) * W) (e : error),
     BuildStateDiff (types.Root parent) (types.Root current)
        (Int64 (types.Number current)) (types.Hash current) w
       = ((stateDiff, Some e), w1) →
     ExtractStateDiff BuildStateDiff PublishStateDiff parent current w
       = ((EmptyString, Some e), w1)) ∧
  (∀ (PublishStateDiff : D → W → (string * option error) * W),
     BuildStateDiff (types.Root parent) (types.Root current)
        (Int64 (types.Number current)) (types.Hash current) w
       = ((stateDiff, None), w1) →
     ExtractStateDiff BuildStateDiff PublishStateDiff parent current w
       = PublishStateDiff stateDiff w1).
Proof.
  split; intros PublishStateDiff; [intros e |]; intros Hbuild;
    unfold ExtractStateDiff; rewrite Hbuild; reflexivity.
Qed.

End ExtractorFacts.

(** ** The diff record [processStateChanges] encodes

    The slices [addr[:]], [k[:]] and [v[:]] share the storage of the loop
    variables, which every iteration overwrites: when the record is
    encoded, after the loops, each of them shows what its variable held
    last. *)

Lemma rangeStorage_run (k v : nat) (entries : list (common.Hash * common.Hash))
    (storageDiffs : list (StorageDiff.t slice)) (fr : frame) :
  rangeStorage k v entries storageDiffs fr =
    (storageDiffs ++ replicate (length entries) (StorageDiff.mk (Of k) (Of v)),
     assigned k v entries fr).
Proof.
  revert storageDiffs fr.
  induction entries as [| [key val] entries IH]; intros storageDiffs fr.
  - cbn. by rewrite app_nil_r.
  - cbn [rangeStorage]. rewrite IH, <- app_assoc. reflexivity.
Qed.

Lemma assigned_length (k v : nat) (entries : list (common.Hash * common.Hash))
    (fr : frame) :
  length (assigned k v entries fr) = length fr.
Proof.
  unfold assigned. revert fr. induction entries as [| e entries IH]; intros fr.
  - reflexivity.
  - cbn [foldl]. by rewrite IH, !length_insert.
Qed.

Lemma assigned_other (k v : nat) (entries : list (common.Hash * common.Hash))
    (fr : frame) (x : nat) :
  x ≠ k → x ≠ v → assigned k v entries fr !! x = fr !! x.
Proof.
  intros Hk Hv. unfold assigned. revert fr.
  induction entries as [| e entries IH]; intros fr.
  - reflexivity.
  - cbn [foldl]. rewrite IH.
    rewrite list_lookup_insert_ne by done. by rewrite list_lookup_insert_ne.
Qed.

Lemma assigned_last (k v : nat) (entries : list (common.Hash * common.Hash))
    (fr : frame) (key val : common.Hash) :
  (k < length fr)%nat → (v < length fr)%nat → k ≠ v →
  last entries = Some (key, val) →
  assigned k v entries fr !! k = Some key ∧
  assigned k v entries fr !! v = Some val.
Proof.
  intros Hk Hv Hkv. destruct entries as [| e entries _] using rev_ind.
  - discriminate.
  - rewrite last_snoc. intros [= ->]. unfold assigned. rewrite foldl_app.
    cbn [foldl fst snd]. fold (assigned k v entries fr). split.
    + rewrite list_lookup_insert_ne by done.
      apply list_lookup_insert_eq. by rewrite assigned_length.
    + apply list_lookup_insert_eq. by rewrite length_insert, assigned_length.
Qed.

Section Assembling.

Context {A : Type}.
Variable EncodeAccount : A → bytes + error.

Lemma observedStorage_load (k v : nat) (entries : list (common.Hash * common.Hash))
    (fr : frame) :
  (∀ key val, last entries = Some (key, val) →
     fr !! k = Some key ∧ fr !! v = Some val) →
  StorageDiff.map (load fr) <$>
    replicate (length entries) (StorageDiff.mk (Of k) (Of v))
  = observedStorage entries.
Proof.
  intros Hlast. unfold observedStorage.
  destruct (last entries) as [[key val] |] eqn:E.
  - destruct (Hlast key val eq_refl) as [Hk Hv].
    rewrite fmap_replicate. unfold StorageDiff.map, load.
    cbn [StorageDiff.Key StorageDiff.Value]. by rewrite Hk, Hv.
  - apply last_None in E. by subst.
Qed.

Lemma rangeAccounts_spec (addr : nat)
    (entries : list (common.Address * state.ModifiedAccount A))
    (storageOrder : common.Address → list (common.Hash * common.Hash))
    (accountDiffs : list (AccountDiff.t slice)) (fr : frame)
    (result : list (AccountDiff.t slice)) (fr' : frame) :
  (addr < length fr)%nat →
  rangeAccounts EncodeAccount addr entries storageOrder accountDiffs fr
    = inl (result, fr') →
  (length fr ≤ length fr')%nat ∧
  (∀ x, (x < length fr)%nat → x ≠ addr → fr' !! x = fr !! x) ∧
  fr' !! addr = match last entries with
                | Some (a, _) => Some a
                | None => fr !! addr
                end ∧
  ∃ news encoded,
    result = accountDiffs ++ news ∧
    Forall2 (fun e b => EncodeAccount (state.Account e.2) = inl b) entries encoded ∧
    AccountDiff.map (load fr') <$> news =
      zip_with (fun e b => AccountDiff.mk (default [] (fr' !! addr)) b
                             (observedStorage (storageOrder e.1)))
               entries encoded.
Proof.
  revert accountDiffs fr.
  induction entries as [| [a m] entries IH]; intros accountDiffs fr Haddr H.
  - cbn in H. injection H as <- <-.
    split; [done |]. split; [done |]. split; [done |].
    exists [], []. rewrite app_nil_r. repeat split; constructor.
  - cbn [rangeAccounts] in H.
    destruct (EncodeAccount (state.Account m)) as [accountBytes | e] eqn:Henc;
      [| discriminate].
    rewrite rangeStorage_run in H.
    remember (<[addr := a]> fr) as fr1 eqn:E1.
    remember (length fr1) as k eqn:Ek.
    remember (assigned k (S k) (storageOrder a) (fr1 ++ [[]; []])) as fr3 eqn:E3.
    assert (k = length fr) as Hk by (subst k fr1; apply length_insert).
    assert (length fr3 = S (S (length fr))) as Hlen3.
    { subst fr3. rewrite assigned_length, length_app, <- Ek, Hk. cbn. lia. }
    apply IH in H as (Hle & Hst & Haddr' & news & encoded & -> & Hall & Hload);
      [| lia].
    assert (∀ x, (x < length fr)%nat → fr3 !! x = fr1 !! x) as Hfr3.
    { intros x Hx. subst fr3. rewrite assigned_other by lia.
      apply lookup_app_l. lia. }
    split; [lia |]. split; [| split].
    + intros x Hx Hne. rewrite Hst by (done || lia). rewrite Hfr3 by done.
      subst fr1. by apply list_lookup_insert_ne.
    + rewrite Haddr', last_cons.
      destruct (last entries) as [[a' m'] |]; [reflexivity |].
      rewrite Hfr3 by done. subst fr1. by apply list_lookup_insert_eq.
    + exists (AccountDiff.mk (Of addr) (Fresh accountBytes)
                (replicate (length (storageOrder a))
                           (StorageDiff.mk (Of k) (Of (S k)))) :: news),
             (accountBytes :: encoded).
      split; [by rewrite <- app_assoc |]. split; [by constructor |].
      rewrite fmap_cons, Hload. cbn [zip_with].
      f_equal. unfold AccountDiff.map at 1; cbn [AccountDiff.Key
        AccountDiff.Value AccountDiff.Storage load fst].
      f_equal. apply observedStorage_load. intros key val Hl.
      rewrite !Hst by lia. subst fr3.
      apply assigned_last; [| | lia | exact Hl]; rewrite length_app; cbn; lia.
Qed.

(** When every account serializes, [assemble] returns the record with the
    block number and hash, and one account diff per entry visited: its
    value is the serialized account of that entry, its key is the address
    visited last, and its storage diffs, one per storage entry visited,
    all repeat the storage entry visited last. *)
Lemma assemble_observed (stateChangeEvent : core.StateChangeEvent A)
    (it : iteration A) (encoded : list bytes) :
  Forall2 (fun e b => EncodeAccount (state.Account e.2) = inl b)
          (accountOrder it) encoded →
  assemble EncodeAccount stateChangeEvent it =
    inl (StateDiff.mk (types.Number (core.Block stateChangeEvent))
                      (types.Hash (core.Block stateChangeEvent))
                      (observedAccounts (storageOrder it) (accountOrder it) encoded)
                      [] None).
Proof.
  intros Hall. unfold assemble.
  destruct (rangeAccounts EncodeAccount 0 (accountOrder it) (storageOrder it) [] [[]])
    as [[accountDiffs fr] | e] eqn:Hrun.
  - apply rangeAccounts_spec in Hrun
      as (_ & _ & Haddr & news & encoded' & -> & Hall' & Hload); [| cbn; lia].
    assert (encoded' = encoded) as ->.
    { clear -Hall Hall'. revert encoded encoded' Hall Hall'.
      induction (accountOrder it) as [| e l IH]; intros enc enc' H1 H2.
      - inversion H1; inversion H2; reflexivity.
      - inversion H1; inversion H2; subst. f_equal; [congruence | by apply IH]. }
    unfold StateDiff.map; cbn [StateDiff.BlockNumber StateDiff.BlockHash
      StateDiff.UpdatedAccounts StateDiff.encoded StateDiff.err app].
    rewrite Hload, Haddr. unfold observedAccounts.
    destruct (last (accountOrder it)) as [[lastAddr m] |] eqn:E; [reflexivity |].
    apply last_None in E. rewrite E. reflexivity.
  - exfalso. clear -Hall Hrun.
    revert Hrun. generalize (@nil (AccountDiff.t slice)) ([[]] : frame).
    induction Hall as [| [a m] b l enc Hb Hall IH]; intros acc fr Hrun.
    + discriminate.
    + cbn [rangeAccounts] in Hrun. cbn in Hb. rewrite Hb in Hrun.
      rewrite rangeStorage_run in Hrun. by apply IH in Hrun.
Qed.

End Assembling.

(** ** A block that modified two accounts *)

Lemma twoAccountsOrder_ranges {A} (account1 account2 : A) :
  ranges_event (twoAccounts account1 account2) (twoAccountsOrder account1 account2).
Proof.
  split.
  - unfold ranges. vm_compute. first [reflexivity | apply Permutation_swap].
  - intros a m Hl. cbn in Hl.
    apply lookup_insert_Some in Hl as [[<- <-] | [Hne Hl]].
    + unfold ranges. vm_compute. first [reflexivity | apply Permutation_swap].
    + apply lookup_singleton_Some in Hl as [<- <-].
      unfold ranges. vm_compute. reflexivity.
Qed.

(** C2.  For the block above, whose two accounts serialize to [b1] and
    [b2], the iteration order is one the maps allow and [assemble] returns
    a record with two account diffs, carrying [b1] and [b2], whose keys
    are both the second address: no account diff has the first address as
    its key.  The two storage diffs of the first account both show the
    second slot and its value: none shows the first slot. *)
Theorem two_accounts_one_key {A : Type} (EncodeAccount : A → bytes + error)
    (account1 account2 : A) (b1 b2 : bytes) :
  EncodeAccount account1 = inl b1 →
  EncodeAccount account2 = inl b2 →
  ranges_event (twoAccounts account1 account2) (twoAccountsOrder account1 account2) ∧
  assemble EncodeAccount (twoAccounts account1 account2)
           (twoAccountsOrder account1 account2)
  = inl (StateDiff.mk 1 (replicate 32 255%N)
           [ AccountDiff.mk address2 b1
               [StorageDiff.mk slot2 word9; StorageDiff.mk slot2 word9];
             AccountDiff.mk address2 b2 [] ]
           [] None) ∧
  address1 ≠ address2 ∧ slot1 ≠ slot2.
Proof.
  intros H1 H2. split; [apply twoAccountsOrder_ranges |]. split.
  - rewrite (assemble_observed EncodeAccount _ _ [b1; b2]).
    + reflexivity.
    + repeat constructor; assumption.
  - split; discriminate.
Qed.

Lemma two_accounts_one_key_witness :
  encodeBalance 5 = inl [5%N] ∧
  encodeBalance 6 = inl [6%N] ∧
  AccountDiff.Key <$>
    match assemble encodeBalance (twoAccounts 5 6) (twoAccountsOrder 5 6) with
    | inl d => StateDiff.UpdatedAccounts d
    | inr _ => []
    end = [address2; address2].
Proof.
  split; [reflexivity |]. split; [reflexivity |].
  destruct (two_accounts_one_key encodeBalance 5 6 [5%N] [6%N] eq_refl eq_refl)
    as (_ & -> & _).
  reflexivity.
Defined.

(** ** The theorems at concrete inputs *)

(** The second block's first account has a negative balance. *)
Lemma failed_event_is_skipped_witness :
  ((∃ a m e, (a, m) ∈ accountOrder (twoAccountsOrder (-1) 6) ∧
             encodeBalance (state.Account m) = inr e) ∨
   (∃ stateDiff e,
      assemble encodeBalance (twoAccounts (-1) 6) (twoAccountsOrder (-1) 6)
        = inl stateDiff ∧
      encodeDiff stateDiff = inr e)) ∧
  ∃ err,
    processStateChanges encodeBalance encodeDiff
      (twoAccounts (-1) 6) (twoAccountsOrder (-1) 6) oneSubscriber
      = Done (Some err) oneSubscriber ∧
    Loop encodeBalance encodeDiff
      [EventReceived (twoAccounts (-1) 6) (twoAccountsOrder (-1) 6)] oneSubscriber
      = Done Waiting (logging (LogError 1 err) oneSubscriber).
Proof.
  assert ((∃ a m e, (a, m) ∈ accountOrder (twoAccountsOrder (-1) 6) ∧
                    encodeBalance (state.Account m) = inr e) ∨
          (∃ stateDiff e,
             assemble encodeBalance (twoAccounts (-1) 6) (twoAccountsOrder (-1) 6)
               = inl stateDiff ∧
             encodeDiff stateDiff = inr e)) as Hfail.
  { left. exists address1, (modified1 (-1)), "rlp: cannot encode negative big.Int"%string.
    split; [apply elem_of_cons; left; reflexivity | reflexivity]. }
  split; [exact Hfail |].
  destruct (failed_event_is_skipped encodeBalance encodeDiff
              (twoAccounts (-1) 6) (twoAccountsOrder (-1) 6) [] oneSubscriber Hfail)
    as (err & Hrun & Hloop).
  exists err. split; [exact Hrun | exact Hloop].
Defined.

(** The quit case taken with one subscriber registered and another event
    queued behind it. *)
Lemma Loop_shutdown_witness :
  stopCase (A := Z) (QuitReceived oneOrder) = Some oneOrder ∧
  ranges (Subscriptions (sds oneSubscriber)) oneOrder ∧
  ∃ w', Loop encodeBalance encodeDiff
          [QuitReceived oneOrder;
           EventReceived (twoAccounts 5 6) (twoAccountsOrder 5 6)] oneSubscriber
          = Done Returned w' ∧
        Subscriptions (sds w') = ∅ ∧
        payloadChans w' = payloadChans oneSubscriber.
Proof.
  split; [reflexivity |]. split; [exact oneOrder_ranges |].
  destruct (Loop_shutdown encodeBalance encodeDiff (QuitReceived oneOrder) oneOrder
              [EventReceived (twoAccounts 5 6) (twoAccountsOrder 5 6)]
              oneSubscriber eq_refl oneOrder_ranges)
    as (_ & Hreturns & Hthen).
  destruct Hreturns as [w' Hw'].
  { reflexivity. }
  { intros id sub Hin. apply elem_of_cons in Hin as [[= -> ->] | Hin].
    - intros c [= <-]. reflexivity.
    - by apply elem_of_nil in Hin. }
  exists w'. split; [exact Hw' |].
  destruct (Hthen Returned w' Hw') as (_ & HS & _ & HP). split; assumption.
Defined.

Lemma empty_event_is_delivered_witness :
  state.ModifiedAccounts (core.StateChanges emptyEvent) = ∅ ∧
  ranges_event emptyEvent emptyOrder ∧
  ∃ w', processStateChanges encodeBalance encodeDiff emptyEvent emptyOrder
          oneSubscriber = Done None w' ∧
        send oneOrder {| StateDiffRlp := [1%N; 0%N] |} oneSubscriber = Done tt w'.
Proof.
  assert (ranges_event emptyEvent emptyOrder) as Hr.
  { split.
    - unfold ranges. cbn. rewrite map_to_list_empty. reflexivity.
    - intros a m Hl. cbn in Hl. by rewrite lookup_empty in Hl. }
  split; [reflexivity |]. split; [exact Hr |].
  destruct (empty_event_is_delivered encodeBalance encodeDiff emptyEvent emptyOrder
              oneSubscriber eq_refl Hr) as [_ Hthen].
  destruct (Hthen [1%N; 0%N] eq_refl) as [_ Hrun].
  destruct Hrun as (w' & Hsend & Hprocess).
  { reflexivity. }
  { intros id sub Hin. apply elem_of_cons in Hin as [[= -> ->] | Hin].
    - split; intros c [= <-]; reflexivity.
    - by apply elem_of_nil in Hin. }
  exists w'. split; assumption.
Defined.

(** A publisher that counts its calls, behind a builder that fails: the
    count stays at zero. *)
Example ExtractStateDiff_failing_builder :
  ExtractStateDiff (W := nat) (D := bytes)
    (fun _ _ _ _ calls => (([], Some "no state for root"%string), calls))
    (fun _ calls => (("published"%string, None), S calls))
    block1 block1 0%nat
  = ((EmptyString, Some "no state for root"%string), 0%nat).
Proof. reflexivity. Qed.

(** ** Further facts about the registry *)

Lemma Subscribe_held (w : world) (id : rpc.ID) (sub quitChan : ref) :
  Mutex (sds w) = true → ∃ w', Subscribe id sub quitChan w = Blocked w'.
Proof.
  destruct w as [[mu qc subs n] P B lg]; simpl; intros ->.
  unfold Subscribe, bind, casSubscribers, getService, setService, Lock; simpl.
  by eexists.
Qed.

Lemma send_held (order : list (rpc.ID * Subscription.t)) (payload : Payload)
    (w : world) :
  Mutex (sds w) = true → send order payload w = Blocked w.
Proof.
  intros H. unfold send, bind. rewrite (Lock_held w H). reflexivity.
Qed.

(** X1.  [Unsubscribe] of an [id] that is not registered returns its error
    with the mutex still held: the error path has no [sds.Unlock()].
    Every registry operation called afterwards parks on [sds.Lock()] and
    never returns. *)
Theorem Unsubscribe_absent_keeps_mutex (w : world) (id : rpc.ID) :
  Mutex (sds w) = false →
  Subscriptions (sds w) !! id = None →
  ∃ e w', Unsubscribe id w = Done (Some e) w' ∧
          Mutex (sds w') = true ∧
          (∀ id' sub quitChan, ∃ w'', Subscribe id' sub quitChan w' = Blocked w'') ∧
          (∀ id', Unsubscribe id' w' = Blocked w') ∧
          (∀ order payload, send order payload w' = Blocked w') ∧
          (∀ order, close order w' = Blocked w').
Proof.
  intros Hmu Hid. eexists _, _. split; [by apply Unsubscribe_absent |].
  split; [reflexivity |]. split; [| split; [| split]].
  - intros id' sub quitChan. by apply Subscribe_held.
  - intros id'. by apply Unsubscribe_held.
  - intros order payload. by apply send_held.
  - intros order. by apply close_held.
Qed.

Lemma Unsubscribe_absent_keeps_mutex_witness :
  Mutex (sds oneSubscriber) = false ∧
  Subscriptions (sds oneSubscriber) !! "b"%string = None ∧
  ∃ e w', Unsubscribe "b" oneSubscriber = Done (Some e) w' ∧
          Unsubscribe "a" w' = Blocked w' ∧
          send oneOrder payload1 w' = Blocked w'.
Proof.
  split; [reflexivity |]. split; [reflexivity |].
  destruct (Unsubscribe_absent_keeps_mutex oneSubscriber "b" eq_refl eq_refl)
    as (e & w' & Hrun & _ & _ & Hunsub & Hsend & _).
  exists e, w'. split; [exact Hrun |]. split; [apply Hunsub | apply Hsend].
Defined.

(** X2.  A sink that has been closed makes [send] panic when its entry's turn
    comes, here the first. *)
Theorem send_closed_sink_panics (w : world) (payload : Payload) (id : rpc.ID)
    (sub : Subscription.t) (rest : list (rpc.ID * Subscription.t))
    (c : chan Payload) :
  Mutex (sds w) = false →
  payloadChans w !! Subscription.PayloadChan sub = Some c →
  closed c = true →
  send ((id, sub) :: rest) payload w = Panicked SendOnClosedChannel.
Proof.
  intros Hmu Hc Hcl. unfold send, bind at 1. rewrite (Lock_free w Hmu).
  unfold bind at 1. cbn [forEach]. unfold bind at 1.
  assert (offer payload (id, sub) (locked w) = Panicked SendOnClosedChannel) as ->.
  { destruct sub as [pc q]. unfold offer, bind, trySendPayload. cbn in *.
    rewrite Hc. cbn. rewrite Hcl. reflexivity. }
  reflexivity.
Qed.

Lemma send_closed_sink_panics_witness :
  Mutex (sds oneSubscriber) = false ∧
  send oneOrder payload1
    {| sds := sds oneSubscriber;
       payloadChans := {[ 1%nat := Chan 1 [] 0 [] true ]};
       boolChans := boolChans oneSubscriber; logged := [] |}
  = Panicked SendOnClosedChannel.
Proof.
  split; [reflexivity |].
  exact (send_closed_sink_panics
           {| sds := sds oneSubscriber;
              payloadChans := {[ 1%nat := Chan 1 [] 0 [] true ]};
              boolChans := boolChans oneSubscriber; logged := [] |}
           payload1 "a" subA [] (Chan 1 [] 0 [] true) eq_refl eq_refl eq_refl).
Defined.

(** X3.  [Subscribe] twice with the same [id] leaves one entry for it, the
    second one. *)
Theorem Subscribe_overwrites (w : world) (id : rpc.ID) (sub1 quit1 sub2 quit2 : ref) :
  Mutex (sds w) = false →
  ∃ w1 w2, Subscribe id sub1 quit1 w = Done tt w1 ∧
           Subscribe id sub2 quit2 w1 = Done tt w2 ∧
           Subscriptions (sds w2) =
             <[id := Subscription.mk sub2 quit2]> (Subscriptions (sds w)) ∧
           size (Subscriptions (sds w2)) = size (Subscriptions (sds w1)).
Proof.
  intros Hmu. eexists _, _. split; [by apply Subscribe_run |].
  split; [by apply Subscribe_run |]. cbn.
  split; [apply insert_insert_eq |].
  apply map_size_insert_Some. rewrite lookup_insert_eq. by eexists.
Qed.

Lemma Subscribe_overwrites_witness :
  Mutex (sds newService) = false ∧
  ∃ w2, bind (Subscribe "a" 1%nat 3%nat) (fun _ => Subscribe "a" 2%nat 4%nat)
          newService = Done tt w2 ∧
        Subscriptions (sds w2) = {[ "a"%string := subB ]}.
Proof.
  split; [reflexivity |].
  destruct (Subscribe_overwrites newService "a" 1%nat 3%nat 2%nat 4%nat eq_refl)
    as (w1 & w2 & H1 & H2 & HS & _).
  exists w2. split.
  - unfold bind. rewrite H1. exact H2.
  - rewrite HS. reflexivity.
Defined.

(** X4.  [Subscribe], [Unsubscribe] and [send] keep the flag in step with the
    mapping. *)
Theorem flag_kept (w w' : world) :
  flag_agrees w →
  (∀ id sub quitChan, Subscribe id sub quitChan w = Done tt w' → flag_agrees w') ∧
  (∀ id r, Unsubscribe id w = Done r w' → flag_agrees w') ∧
  (∀ order payload, send order payload w = Done tt w' → flag_agrees w').
Proof.
  intros Hinv. split; [| split].
  - intros id sub quitChan. by apply Subscribe_flag.
  - intros id r. by apply Unsubscribe_flag.
  - intros order payload. by apply send_flag.
Qed.

Lemma flag_kept_witness :
  flag_agrees newService ∧ flag_agrees oneSubscriber.
Proof.
  assert (flag_agrees newService) as H0 by (right; split; reflexivity).
  split; [exact H0 |].
  destruct (flag_kept newService oneSubscriber H0) as [Hsub _].
  apply (Hsub "a"%string 1%nat 3%nat). vm_compute. reflexivity.
Defined.

(** [send] touches the payload sinks of the entries it ranges over and
    no other: a sink whose subscriber has unsubscribed receives nothing. *)
Theorem send_leaves_other_sinks (w w' : world) (payload : Payload)
    (order : list (rpc.ID * Subscription.t)) (r : ref) :
  r ∉ Subscription.PayloadChan <$> order.*2 →
  send order payload w = Done tt w' →
  payloadChans w' !! r = payloadChans w !! r.
Proof.
  intros Hr H. apply send_inv in H as (_ & wl & Hloop & ->).
  pose proof (forEach_offer_frame _ _ _ _ Hloop) as (_ & _ & _ & _ & _ & _ & HP).
  cbn. by rewrite HP.
Qed.

(** ** Backpressure isolation *)

Lemma chansend_nb_room {A} (c : chan A) (v : A) :
  closed c = false → recvq c = 0%nat → (length (buf c) < cap c)%nat →
  chansend_nb (Some c) v = Sent (Chan (cap c) (buf c ++ [v]) 0 (taken c) false).
Proof.
  unfold chansend_nb. intros -> -> Hroom. simpl.
  destruct (length (buf c) <? cap c)%nat eqn:Hlt; [reflexivity |].
  apply Nat.ltb_ge in Hlt. lia.
Qed.

Lemma forEach_offer_open (payload : Payload) (l : list (rpc.ID * Subscription.t))
    (w w' : world) :
  forEach l (offer payload) w = Done tt w' →
  ∀ r, open_at (boolChans w) r → open_at (boolChans w') r.
Proof.
  revert w. induction l as [| e l IH]; intros w; cbn [forEach].
  - intros [= <-]. auto.
  - intros H r Hr. apply bind_Done in H as ([] & w2 & H2 & Hrest).
    apply (IH _ Hrest). by apply (offer_open _ _ _ _ H2).
Qed.

Section Backpressure.

Variables a b : rpc.ID.
Variables sa sb : Subscription.t.
Hypothesis different_sinks :
  Subscription.PayloadChan sa ≠ Subscription.PayloadChan sb.

Lemma isolated_send (room : option nat) (hist : list Payload) (w : world)
    (order : list (rpc.ID * Subscription.t)) (payload : Payload) :
  isolated a b sa sb room hist w →
  ranges (Subscriptions (sds w)) order →
  (∃ w1, send order payload w = Done tt w1) ∧
  ∀ w1, send order payload w = Done tt w1 →
    isolated a b sa sb (nextRoom room) (hist ++ [payload])
             (drain (Subscription.PayloadChan sb) w1).
Proof.
  intros (Hmu & Hb & Hkeys & (cb & Hcb & Hclb & Hrqb & Hbufb & Hcapb & Htakb)
          & Hqa & Hqb & Hroom) Hr.
  assert (unshared (Subscriptions (sds w)) b sb) as Hunb.
  { intros id' s' Hl Hne. destruct (Hkeys _ _ Hl) as [-> | [-> ->]]; done. }
  assert (unshared (Subscriptions (sds w)) a sa) as Huna.
  { intros id' s' Hl Hne. destruct (Hkeys _ _ Hl) as [-> | [-> ->]]; [| done].
    rewrite Hb in Hl. injection Hl as <-. done. }
  split.
  { destruct (forEach_offer_total payload order (locked w)) as [wl Hwl].
    - intros id s Hin. apply (ranges_elem _ _ _ _ Hr) in Hin.
      destruct (Hkeys _ _ Hin) as [-> | [-> ->]].
      + rewrite Hb in Hin. injection Hin as <-. split; [| exact Hqb].
        intros c Hc. cbn in Hc. rewrite Hcb in Hc. by injection Hc as <-.
      + split; [| exact Hqa]. destruct room as [n |].
        * destruct Hroom as (_ & ca & Hca & Hcla & _).
          intros c Hc. cbn in Hc. rewrite Hca in Hc. by injection Hc as <-.
        * congruence.
    - eexists. by apply send_run. }
  intros w1 Hsend. apply send_inv in Hsend as (_ & wl & Hloop & ->).
  pose proof (forEach_offer_frame _ _ _ _ Hloop) as (_ & _ & _ & _ & _ & HS & _).
  pose proof (send_own_sink payload order w wl b sb Hr Hloop Hb Hunb) as Hownb.
  rewrite Hcb in Hownb.
  rewrite (chansend_nb_room cb payload Hclb Hrqb) in Hownb
    by (rewrite Hbufb; cbn; lia).
  destruct Hownb as [Hb' Hcb'].
  split; [reflexivity |]. split; [exact Hb' |]. split; [| split; [| split; [| split]]].
  - intros id s Hl. apply HS in Hl. by apply Hkeys.
  - eexists. split.
    { cbn. rewrite lookup_alter_eq, Hcb'. reflexivity. }
    cbn. rewrite Hbufb, Htakb. auto.
  - by apply (forEach_offer_open _ _ _ _ Hloop).
  - by apply (forEach_offer_open _ _ _ _ Hloop).
  - destruct room as [[| n] |]; cbn [nextRoom].
    + destruct Hroom as (Ha & ca & Hca & Hcla & Hrqa & Hfull).
      pose proof (send_own_sink payload order w wl a sa Hr Hloop Ha Huna) as Howna.
      rewrite Hca in Howna.
      rewrite (chansend_nb_full ca payload Hcla Hrqa) in Howna by lia.
      tauto.
    + destruct Hroom as (Ha & ca & Hca & Hcla & Hrqa & Hlen).
      pose proof (send_own_sink payload order w wl a sa Hr Hloop Ha Huna) as Howna.
      rewrite Hca in Howna.
      rewrite (chansend_nb_room ca payload Hcla Hrqa) in Howna by lia.
      destruct Howna as [Ha' Hca']. split; [exact Ha' |].
      eexists. split.
      { cbn. rewrite lookup_alter_ne by done. exact Hca'. }
      cbn. rewrite length_app. cbn. split; [reflexivity |]. split; [reflexivity |]. lia.
    + cbn. destruct (Subscriptions (sds wl) !! a) as [s |] eqn:E; [| done].
      apply HS in E. cbn in E. congruence.
Qed.

Lemma isolated_fanned (payloads : list Payload) (room : option nat)
    (hist : list Payload) (w w' : world) :
  isolated a b sa sb room hist w →
  fanned (Subscription.PayloadChan sb) payloads w w' →
  isolated a b sa sb (Nat.iter (length payloads) nextRoom room)
           (hist ++ payloads) w'.
Proof.
  intros Hiso Hrun. revert room hist Hiso.
  induction Hrun as [w | payload payloads order w w1 w' Hr Hsend Hrun IH];
    intros room hist Hiso.
  - cbn. by rewrite app_nil_r.
  - destruct (isolated_send room hist w order payload Hiso Hr) as [_ Hstep].
    specialize (IH _ _ (Hstep w1 Hsend)).
    rewrite <- app_assoc in IH. cbn [app] in IH.
    replace (Nat.iter (length (payload :: payloads)) nextRoom room)
      with (Nat.iter (length payloads) nextRoom (nextRoom room)); [exact IH |].
    cbn [length]. symmetry. apply Nat.iter_succ_r.
Qed.

Lemma fanned_total (payloads : list Payload) (room : option nat)
    (hist : list Payload) (w : world) :
  isolated a b sa sb room hist w →
  ∃ w', fanned (Subscription.PayloadChan sb) payloads w w'.
Proof.
  revert room hist w. induction payloads as [| payload payloads IH];
    intros room hist w Hiso.
  - eexists. constructor.
  - destruct (isolated_send room hist w (map_to_list (Subscriptions (sds w)))
                payload Hiso) as [[w1 Hsend] Hstep]; [by unfold ranges |].
    destruct (IH _ _ _ (Hstep w1 Hsend)) as [w' Hrun].
    exists w'. econstructor; [| exact Hsend | exact Hrun]. by unfold ranges.
Qed.

Lemma nextRoom_iter_None (n : nat) : Nat.iter n nextRoom None = None.
Proof.
  induction n as [| n IH]; [reflexivity |].
  rewrite Nat.iter_succ, IH. reflexivity.
Qed.

Lemma nextRoom_iter (n room : nat) :
  Nat.iter n nextRoom (Some room) =
    if (n <=? room)%nat then Some (room - n)%nat else None.
Proof.
  revert room. induction n as [| n IH]; intros room.
  - cbn. by rewrite Nat.sub_0_r.
  - rewrite Nat.iter_succ_r. destruct room as [| room]; cbn [nextRoom].
    + apply nextRoom_iter_None.
    + rewrite IH. reflexivity.
Qed.

(** X5.  Two subscribers with sinks of their own: [a] never drains its sink,
    which has room for [room] more payloads; [b] always drains its sink.
    Any run of [send] over the payloads can be made and returns; after
    it [b] is still registered and its sink has let through every payload
    in order; [a] is still registered if the payloads fit its sink, and
    evicted as soon as there was one more. *)
Theorem backpressure_isolation (payloads : list Payload) (room : nat)
    (hist : list Payload) (w : world) :
  isolated a b sa sb (Some room) hist w →
  (∃ w', fanned (Subscription.PayloadChan sb) payloads w w') ∧
  ∀ w', fanned (Subscription.PayloadChan sb) payloads w w' →
    Subscriptions (sds w') !! b = Some sb ∧
    (∃ cb, payloadChans w' !! Subscription.PayloadChan sb = Some cb ∧
           accepted cb = hist ++ payloads) ∧
    ((length payloads ≤ room)%nat → Subscriptions (sds w') !! a = Some sa) ∧
    ((room < length payloads)%nat → Subscriptions (sds w') !! a = None).
Proof.
  intros Hiso. split; [by apply fanned_total with (Some room) hist |].
  intros w' Hrun.
  pose proof (isolated_fanned payloads (Some room) hist w w' Hiso Hrun)
    as (_ & Hb & _ & (cb & Hcb & _ & _ & Hbuf & _ & Htak) & _ & _ & Ha).
  split; [exact Hb |]. split.
  { exists cb. split; [exact Hcb |]. unfold accepted.
    by rewrite Hbuf, Htak, app_nil_r. }
  rewrite nextRoom_iter in Ha.
  split; intros Hlen.
  - apply Nat.leb_le in Hlen. rewrite Hlen in Ha. tauto.
  - apply Nat.leb_gt in Hlen. rewrite Hlen in Ha. exact Ha.
Qed.

End Backpressure.

Lemma twoSubscribers_isolated :
  isolated "a" "b" subA subB (Some 0%nat) [] twoSubscribers.
Proof.
  split; [reflexivity |]. split; [reflexivity |]. split.
  { intros id s Hl. apply twoSubscribers_lookup in Hl. tauto. }
  split.
  { exists (make 1). cbn. repeat split; reflexivity || lia. }
  split; [intros c [= <-]; reflexivity |].
  split; [intros c [= <-]; reflexivity |].
  split; [reflexivity |].
  exists (Chan 1 [payload0] 0 [] false). repeat split; reflexivity.
Qed.

Lemma backpressure_isolation_witness :
  Subscription.PayloadChan subA ≠ Subscription.PayloadChan subB ∧
  isolated "a" "b" subA subB (Some 0%nat) [] twoSubscribers ∧
  ∃ w', fanned 2%nat [payload1; payload0] twoSubscribers w' ∧
        Subscriptions (sds w') !! "a"%string = None ∧
        Subscriptions (sds w') !! "b"%string = Some subB ∧
        ∃ cb, payloadChans w' !! 2%nat = Some cb ∧
              accepted cb = [payload1; payload0].
Proof.
  assert (Subscription.PayloadChan subA ≠ Subscription.PayloadChan subB)
    as Hsinks by discriminate.
  split; [exact Hsinks |].
  split; [exact twoSubscribers_isolated |].
  destruct (backpressure_isolation "a" "b" subA subB Hsinks
              [payload1; payload0] 0%nat [] twoSubscribers twoSubscribers_isolated)
    as [[w' Hrun] Hthen].
  exists w'. split; [exact Hrun |].
  destruct (Hthen w' Hrun) as (Hb & Hcb & _ & Ha).
  split; [apply Ha; cbn; lia |]. split; [exact Hb | exact Hcb].
Defined.

(** ** Events are delivered in arrival order *)

Lemma send_single_room (w : world) (id : rpc.ID) (sub : Subscription.t)
    (payload : Payload) (c : chan Payload) :
  Mutex (sds w) = false →
  Subscriptions (sds w) = {[ id := sub ]} →
  payloadChans w !! Subscription.PayloadChan sub = Some c →
  closed c = false → recvq c = 0%nat → (length (buf c) < cap c)%nat →
  send [(id, sub)] payload w =
    Done tt (withPayloadChan (Subscription.PayloadChan sub)
               (Chan (cap c) (buf c ++ [payload]) 0 (taken c) false) w).
Proof.
  intros Hmu HS Hc Hcl Hrq Hroom.
  assert (forEach [(id, sub)] (offer payload) (locked w) =
          Done tt (withPayloadChan (Subscription.PayloadChan sub)
                     (Chan (cap c) (buf c ++ [payload]) 0 (taken c) false)
                     (locked w))) as Hloop.
  { destruct sub as [pc q]. cbn [forEach]. unfold offer, trySendPayload, bind.
    cbn [Subscription.PayloadChan] in *.
    change (payloadChans (locked w)) with (payloadChans w).
    rewrite Hc, (chansend_nb_room c payload Hcl Hrq Hroom). reflexivity. }
  rewrite (send_run _ _ _ _ Hmu Hloop).
  destruct w as [[mu qc subs n] P B lg]. cbn in *. subst mu subs.
  unfold afterSend, withPayloadChan, withService, resetFlag. cbn.
  rewrite map_size_singleton. reflexivity.
Qed.

Section ArrivalOrder.

Context {A : Type}.
Variable EncodeAccount : A → bytes + error.
Variable EncodeStateDiff : StateDiff.t bytes → bytes + error.

Lemma processStateChanges_payloadOf (ev : core.StateChangeEvent A)
    (it : iteration A) (payload : Payload) (w : world) :
  payloadOf EncodeAccount EncodeStateDiff (ev, it) = Some payload →
  processStateChanges EncodeAccount EncodeStateDiff ev it w =
    bind (send (subscriptionOrder it) payload) (fun _ => ret None) w.
Proof.
  unfold processStateChanges, payloadOf. cbn [fst snd].
  destruct (assemble EncodeAccount ev it) as [d | e]; [| discriminate].
  destruct (EncodeStateDiff d) as [b | e]; [| discriminate].
  intros [= <-]. reflexivity.
Qed.

Lemma processStateChanges_skips (ev : core.StateChangeEvent A)
    (it : iteration A) (w : world) :
  payloadOf EncodeAccount EncodeStateDiff (ev, it) = None →
  ∃ e, processStateChanges EncodeAccount EncodeStateDiff ev it w = Done (Some e) w.
Proof.
  unfold processStateChanges, payloadOf. cbn [fst snd].
  destruct (assemble EncodeAccount ev it) as [d | e]; [| by eexists].
  destruct (EncodeStateDiff d) as [b | e]; [discriminate | by eexists].
Qed.

(** X6.  One subscriber whose open sink has room for every queued event: [Loop]
    processes the events in the order they arrive and stays waiting; the
    sink holds, behind what it held, the payloads of the events that
    assembled and encoded, in arrival order; an event that failed is
    skipped without holding up the ones behind it; the subscriber stays
    registered. *)
Theorem Loop_delivers_in_order
    (cases : list (core.StateChangeEvent A * iteration A))
    (w : world) (id : rpc.ID) (sub : Subscription.t) (c : chan Payload) :
  Mutex (sds w) = false →
  Subscriptions (sds w) = {[ id := sub ]} →
  payloadChans w !! Subscription.PayloadChan sub = Some c →
  closed c = false → recvq c = 0%nat →
  (length (buf c) + length cases ≤ cap c)%nat →
  (∀ case, case ∈ cases → subscriptionOrder case.2 = [(id, sub)]) →
  ∃ w', Loop EncodeAccount EncodeStateDiff
          ((fun case => EventReceived case.1 case.2) <$> cases) w
          = Done Waiting w' ∧
        sds w' = sds w ∧
        payloadChans w' !! Subscription.PayloadChan sub =
          Some (Chan (cap c)
                     (buf c ++ omap (payloadOf EncodeAccount EncodeStateDiff) cases)
                     0 (taken c) false).
Proof.
  revert w c. induction cases as [| [ev it] cases IH];
    intros w c Hmu HS Hc Hcl Hrq Hroom Horder.
  - exists w. split; [reflexivity |]. split; [reflexivity |].
    cbn. rewrite app_nil_r, Hc. destruct c; cbn in *; by subst.
  - cbn [fmap list_fmap Loop fst snd]. unfold bind at 1.
    cbn [length] in Hroom.
    assert (subscriptionOrder it = [(id, sub)]) as Hit.
    { apply (Horder (ev, it)). apply elem_of_cons; auto. }
    assert (∀ case, case ∈ cases → subscriptionOrder case.2 = [(id, sub)]) as Hrest.
    { intros case Hin. apply Horder. apply elem_of_cons; auto. }
    cbn [omap list_omap].
    destruct (payloadOf EncodeAccount EncodeStateDiff (ev, it)) as [payload |] eqn:Hp.
    + rewrite (processStateChanges_payloadOf ev it payload w Hp), Hit.
      unfold bind at 1.
      rewrite (send_single_room w id sub payload c Hmu HS Hc Hcl Hrq) by lia.
      cbn [ret]. unfold bind at 1. cbn [ret].
      destruct (IH (withPayloadChan (Subscription.PayloadChan sub)
                      (Chan (cap c) (buf c ++ [payload]) 0 (taken c) false) w)
                   (Chan (cap c) (buf c ++ [payload]) 0 (taken c) false))
        as (w' & Hrun & Hsds & Hsink); try done.
      * cbn. apply lookup_insert_eq.
      * cbn. rewrite length_app. cbn. lia.
      * exists w'. split; [exact Hrun |]. split; [exact Hsds |].
        rewrite Hsink. cbn. by rewrite <- app_assoc.
    + destruct (processStateChanges_skips ev it w Hp) as [e ->].
      unfold bind at 1.
      destruct (IH (logging (LogError (types.Number (core.Block ev)) e) w) c)
        as (w' & Hrun & Hsds & Hsink); try done.
      * lia.
      * exists w'. split; [exact Hrun |]. split; [exact Hsds | exact Hsink].
Qed.

End ArrivalOrder.

(** Blocks 1, 2 and 3 arrive in order; the account of block 2 does not
    serialize.  The sink receives the payloads of blocks 1 and 3, in that
    order. *)
Lemma Loop_delivers_in_order_witness :
  Mutex (sds roomySubscriber) = false ∧
  Subscriptions (sds roomySubscriber) = {[ "a"%string := subA ]} ∧
  ∃ w', Loop encodeBalance encodeDiff
          [EventReceived (oneAccount 1 5) (oneAccountOrder 5);
           EventReceived (oneAccount 2 (-1)) (oneAccountOrder (-1));
           EventReceived (oneAccount 3 6) (oneAccountOrder 6)] roomySubscriber
          = Done Waiting w' ∧
        payloadChans w' !! 1%nat =
          Some (Chan 3 [ {| StateDiffRlp := [1%N; 1%N] |};
                         {| StateDiffRlp := [3%N; 1%N] |} ] 0 [] false).
Proof.
  split; [reflexivity |]. split; [reflexivity |].
  destruct (Loop_delivers_in_order encodeBalance encodeDiff
              [(oneAccount 1 5, oneAccountOrder 5);
               (oneAccount 2 (-1), oneAccountOrder (-1));
               (oneAccount 3 6, oneAccountOrder 6)]
              roomySubscriber "a" subA (make 3) eq_refl eq_refl eq_refl eq_refl eq_refl)
    as (w' & Hrun & _ & Hsink).
  { cbn. lia. }
  { intros case Hin.
    apply elem_of_cons in Hin as [-> | Hin]; [reflexivity |].
    apply elem_of_cons in Hin as [-> | Hin]; [reflexivity |].
    apply elem_of_cons in Hin as [-> | Hin]; [reflexivity |].
    by apply elem_of_nil in Hin. }
  exists w'. split; [exact Hrun | exact Hsink].
Defined.

(** X7.  A subscriber that subscribes with a sink no other entry uses and
    unsubscribes right away is not registered, and no later [send] puts
    anything into its sink. *)
Theorem unsubscribed_receives_nothing (w : world) (id : rpc.ID) (sub quitChan : ref) :
  Mutex (sds w) = false →
  (∀ id' s, Subscriptions (sds w) !! id' = Some s →
            Subscription.PayloadChan s ≠ sub) →
  ∃ w1, bind (Subscribe id sub quitChan) (fun _ => Unsubscribe id) w = Done None w1 ∧
        Subscriptions (sds w1) !! id = None ∧
        ∀ order payload w2,
          ranges (Subscriptions (sds w1)) order →
          send order payload w1 = Done tt w2 →
          payloadChans w2 !! sub = payloadChans w !! sub.
Proof.
  intros Hmu Hfresh. unfold bind at 1.
  rewrite (Subscribe_run w id sub quitChan Hmu).
  eexists. split.
  { eapply Unsubscribe_present; [reflexivity | apply lookup_insert_eq]. }
  split; [cbn; apply lookup_delete_eq |].
  intros order payload w2 Hr Hsend.
  assert (sub ∉ Subscription.PayloadChan <$> order.*2) as Hnotin.
  { intros Hin. apply list_elem_of_fmap in Hin as (s & -> & Hin).
    apply list_elem_of_fmap in Hin as ([id' s'] & -> & Hin). cbn [snd] in *.
    apply (ranges_elem _ _ _ _ Hr) in Hin. cbn in Hin.
    rewrite delete_insert_eq in Hin. apply lookup_delete_Some in Hin as [_ Hin].
    by apply (Hfresh id' s'). }
  exact (send_leaves_other_sinks _ _ _ _ _ Hnotin Hsend).
Qed.

Lemma unsubscribed_receives_nothing_witness :
  Mutex (sds oneSubscriber) = false ∧
  ∃ w1, bind (Subscribe "s2" 2%nat 4%nat) (fun _ => Unsubscribe "s2") oneSubscriber
          = Done None w1 ∧
        Subscriptions (sds w1) !! "s2"%string = None.
Proof.
  split; [reflexivity |].
  destruct (unsubscribed_receives_nothing oneSubscriber "s2" 2%nat 4%nat eq_refl)
    as (w1 & Hrun & Hgone & _).
  { intros id' s Hl. apply (ranges_elem _ _ _ _ oneOrder_ranges) in Hl.
    apply elem_of_cons in Hl as [[= -> ->] | Hl]; [discriminate |].
    by apply elem_of_nil in Hl. }
  exists w1. split; assumption.
Defined.

(** ** What the assembled record gets right *)

Lemma observedStorage_length (entries : list (common.Hash * common.Hash)) :
  length (observedStorage entries) = length entries.
Proof.
  unfold observedStorage. destruct (last entries) as [[key val] |] eqn:E.
  - apply length_replicate.
  - apply last_None in E. by subst.
Qed.

Section Counts.

Context {A : Type}.
Variable EncodeAccount : A → bytes + error.

(** X8.  When every account of the event serializes, the record [assemble]
    returns carries the block number and the block hash, has as many
    account diffs as the event has modified accounts, their values are
    the serialized accounts in visiting order, and the account diff at
    each place has as many storage diffs as that account has modified
    storage slots; every account diff has as its key the address visited
    last. *)
Theorem assemble_counts (stateChangeEvent : core.StateChangeEvent A)
    (it : iteration A) (encoded : list bytes) :
  ranges_event stateChangeEvent it →
  Forall2 (fun e b => EncodeAccount (state.Account e.2) = inl b)
          (accountOrder it) encoded →
  ∃ stateDiff,
    assemble EncodeAccount stateChangeEvent it = inl stateDiff ∧
    StateDiff.BlockNumber stateDiff = types.Number (core.Block stateChangeEvent) ∧
    StateDiff.BlockHash stateDiff = types.Hash (core.Block stateChangeEvent) ∧
    length (StateDiff.UpdatedAccounts stateDiff) =
      size (state.ModifiedAccounts (core.StateChanges stateChangeEvent)) ∧
    AccountDiff.Value <$> StateDiff.UpdatedAccounts stateDiff = encoded ∧
    Forall2 (fun ad e => length (AccountDiff.Storage ad) = size (state.Storage e.2))
            (StateDiff.UpdatedAccounts stateDiff) (accountOrder it) ∧
    ∀ ad, ad ∈ StateDiff.UpdatedAccounts stateDiff →
          ∃ e, last (accountOrder it) = Some e ∧ AccountDiff.Key ad = e.1.
Proof.
  intros [Hr Hst] Hall.
  exists (StateDiff.mk (types.Number (core.Block stateChangeEvent))
            (types.Hash (core.Block stateChangeEvent))
            (observedAccounts (storageOrder it) (accountOrder it) encoded) [] None).
  split; [by apply assemble_observed |].
  cbn [StateDiff.BlockNumber StateDiff.BlockHash StateDiff.UpdatedAccounts].
  split; [reflexivity |]. split; [reflexivity |].
  assert (∀ e, e ∈ accountOrder it →
               length (storageOrder it e.1) = size (state.Storage e.2)) as Hslots.
  { intros [a m] Hin. cbn. unfold ranges in Hr. rewrite Hr in Hin.
    apply elem_of_map_to_list in Hin. specialize (Hst a m Hin).
    unfold ranges in Hst. rewrite Hst. apply length_map_to_list. }
  assert (length (accountOrder it) =
          size (state.ModifiedAccounts (core.StateChanges stateChangeEvent))) as Hsize.
  { unfold ranges in Hr. rewrite Hr. apply length_map_to_list. }
  rewrite <- Hsize. clear Hr Hst Hsize.
  unfold observedAccounts.
  destruct (last (accountOrder it)) as [[lastAddr lastM] |] eqn:Hlast.
  2: { apply last_None in Hlast. rewrite Hlast in *. inversion Hall; subst.
       repeat split; try constructor. intros ad Hin. by apply elem_of_nil in Hin. }
  generalize dependent (accountOrder it). intros order Hall Hslots _.
  assert (length (zip_with (fun e accountBytes =>
            AccountDiff.mk lastAddr accountBytes (observedStorage (storageOrder it e.1)))
            order encoded) = length order ∧
          AccountDiff.Value <$> zip_with (fun e accountBytes =>
            AccountDiff.mk lastAddr accountBytes (observedStorage (storageOrder it e.1)))
            order encoded = encoded ∧
          Forall2 (fun ad e => length (AccountDiff.Storage ad) = size (state.Storage e.2))
            (zip_with (fun e accountBytes =>
               AccountDiff.mk lastAddr accountBytes
                 (observedStorage (storageOrder it e.1))) order encoded) order ∧
          ∀ ad, ad ∈ zip_with (fun e accountBytes =>
                  AccountDiff.mk lastAddr accountBytes
                    (observedStorage (storageOrder it e.1))) order encoded →
                AccountDiff.Key ad = lastAddr) as (H1 & H2 & H3 & H4).
  { induction Hall as [| e b order encoded Hb Hall IH].
    - repeat split; try constructor. intros ad Hin. by apply elem_of_nil in Hin.
    - destruct IH as (H1 & H2 & H3 & H4).
      { intros e' Hin. apply Hslots. apply elem_of_cons; auto. }
      cbn [zip_with length fmap list_fmap AccountDiff.Value].
      split; [by rewrite H1 |]. split; [by rewrite <- H2 at 2 |]. split.
      + constructor; [| exact H3]. cbn. rewrite observedStorage_length.
        apply Hslots. apply elem_of_cons; auto.
      + intros ad [-> | Hin]%elem_of_cons; [reflexivity | by apply H4]. }
  split; [exact H1 |]. split; [exact H2 |]. split; [exact H3 |].
  intros ad Hin. exists (lastAddr, lastM). split; [reflexivity |]. by apply H4.
Qed.

End Counts.

Lemma assemble_counts_witness :
  ranges_event (twoAccounts 5 6) (twoAccountsOrder 5 6) ∧
  Forall2 (fun e b => encodeBalance (state.Account e.2) = inl b)
          (accountOrder (twoAccountsOrder 5 6)) [[5%N]; [6%N]] ∧
  ∃ stateDiff,
    assemble encodeBalance (twoAccounts 5 6) (twoAccountsOrder 5 6) = inl stateDiff ∧
    length (StateDiff.UpdatedAccounts stateDiff) = 2%nat ∧
    AccountDiff.Value <$> StateDiff.UpdatedAccounts stateDiff = [[5%N]; [6%N]].
Proof.
  assert (Forall2 (fun e b => encodeBalance (state.Account e.2) = inl b)
            (accountOrder (twoAccountsOrder 5 6)) [[5%N]; [6%N]]) as Hall.
  { repeat constructor. }
  split; [apply twoAccountsOrder_ranges |]. split; [exact Hall |].
  destruct (assemble_counts encodeBalance (twoAccounts 5 6) (twoAccountsOrder 5 6)
              [[5%N]; [6%N]] (twoAccountsOrder_ranges 5 6) Hall)
    as (d & Hd & _ & _ & Hlen & Hval & _).
  exists d. split; [exact Hd |]. split; [| exact Hval].
  rewrite Hlen. reflexivity.
Defined.

(** ** The order of [range] over the registry *)

Lemma chansend_nb_closedAt {A} (h : gmap ref (chan A)) (r : ref) (v : A) :
  closedAt h r = true → chansend_nb (h !! r) v = SendPanics.
Proof.
  unfold closedAt, chansend_nb. destruct (h !! r) as [c |]; [| discriminate].
  by intros ->.
Qed.

Lemma chansend_nb_not_closedAt {A} (h : gmap ref (chan A)) (r : ref) (v : A) :
  closedAt h r = false → chansend_nb (h !! r) v ≠ SendPanics.
Proof.
  intros H. apply chansend_nb_open. intros c Hc. unfold closedAt in H.
  by rewrite Hc in H.
Qed.

Lemma cancel_run (id : rpc.ID) (sub : Subscription.t) (w : world) :
  cancel (id, sub) w =
    if closedAt (boolChans w) (Subscription.QuitChan sub)
    then Panicked SendOnClosedChannel
    else Done tt (cancelled id (Subscription.QuitChan sub) w).
Proof.
  destruct (closedAt (boolChans w) (Subscription.QuitChan sub)) eqn:Hcl.
  - pose proof (chansend_nb_closedAt _ _ true Hcl) as Hs.
    destruct sub as [pc q]. unfold cancel, trySendBool, bind. cbn in *.
    by rewrite Hs.
  - pose proof (chansend_nb_not_closedAt _ _ true Hcl) as Hs.
    destruct w as [[mu qc subs n] P B lg]; destruct sub as [pc q].
    unfold cancel, trySendBool, bind, updSubscriptions, setService, cancelled,
      signal. cbn in *.
    destruct (chansend_nb (B !! q) true); done.
Qed.

Lemma closedAt_signal (h : gmap ref (chan bool)) (q r : ref) :
  closedAt (signal h q) r = closedAt h r.
Proof.
  unfold signal. destruct (chansend_nb (h !! q) true) as [c | |] eqn:Hs; try done.
  unfold closedAt. destruct (decide (q = r)) as [<- | Hne].
  - rewrite lookup_insert_eq. rewrite (chansend_nb_Sent_open _ _ _ Hs).
    unfold chansend_nb in Hs. destruct (h !! q) as [c0 |]; [| done].
    by destruct (closed c0).
  - by rewrite lookup_insert_ne.
Qed.

Lemma signal_lookup_ne (h : gmap ref (chan bool)) (q r : ref) :
  q ≠ r → signal h q !! r = h !! r.
Proof.
  intros Hne. unfold signal.
  destruct (chansend_nb (h !! q) true); try done. by rewrite lookup_insert_ne.
Qed.

Lemma signal_commute (h : gmap ref (chan bool)) (q1 q2 : ref) :
  signal (signal h q1) q2 = signal (signal h q2) q1.
Proof.
  destruct (decide (q1 = q2)) as [-> | Hne]; [done |].
  unfold signal at 1 3.
  rewrite (signal_lookup_ne h q1 q2 Hne), (signal_lookup_ne h q2 q1) by done.
  unfold signal.
  destruct (chansend_nb (h !! q1) true), (chansend_nb (h !! q2) true); try done.
  by apply insert_insert_ne.
Qed.

Lemma cancelled_commute (id1 id2 : rpc.ID) (q1 q2 : ref) (w : world) :
  cancelled id2 q2 (cancelled id1 q1 w) = cancelled id1 q1 (cancelled id2 q2 w).
Proof.
  unfold cancelled. cbn. rewrite (signal_commute _ q1 q2).
  by rewrite (delete_delete _ id1 id2).
Qed.

Lemma cancel_commute (e1 e2 : rpc.ID * Subscription.t) :
  commute (cancel e1) (cancel e2).
Proof.
  destruct e1 as [id1 s1], e2 as [id2 s2]. intros w. unfold bind.
  rewrite !cancel_run.
  destruct (closedAt (boolChans w) (Subscription.QuitChan s1)) eqn:H1,
           (closedAt (boolChans w) (Subscription.QuitChan s2)) eqn:H2;
    rewrite ?cancel_run; cbn [cancelled boolChans];
    rewrite ?closedAt_signal, ?H1, ?H2; try reflexivity.
  by rewrite cancelled_commute.
Qed.

Lemma bind_ext {A B} (m : M A) (k1 k2 : A → M B) (w : world) :
  (∀ a w', k1 a w' = k2 a w') → bind m k1 w = bind m k2 w.
Proof.
  intros H. unfold bind. destruct (m w); auto.
Qed.

Lemma bind_assoc_unit (f g h : M unit) (w : world) :
  bind f (fun _ => bind g (fun _ => h)) w =
  bind (bind f (fun _ => g)) (fun _ => h) w.
Proof.
  unfold bind. destruct (f w); reflexivity.
Qed.

Lemma forEach_Permutation {A} (body : A → M unit) (l1 l2 : list A) :
  l1 ≡ₚ l2 →
  (∀ x y, x ∈ l1 → y ∈ l1 → commute (body x) (body y)) →
  ∀ w, forEach l1 body w = forEach l2 body w.
Proof.
  induction 1 as [| x l1 l2 Hp IH | x y l | l1 l2 l3 Hp1 IH1 Hp2 IH2];
    intros Hc w.
  - reflexivity.
  - cbn [forEach]. apply bind_ext. intros _ w'. apply IH.
    intros a b Ha Hb. apply Hc; apply elem_of_cons; auto.
  - cbn [forEach]. rewrite !bind_assoc_unit.
    unfold bind at 1 3.
    rewrite (Hc y x); [reflexivity | |]; set_solver.
  - rewrite IH1 by done. apply IH2.
    intros a b Ha Hb. apply Hc; by rewrite Hp1.
Qed.

Lemma offer_run (payload : Payload) (id : rpc.ID) (sub : Subscription.t)
    (w : world) :
  offer payload (id, sub) w =
    match chansend_nb (payloadChans w !! Subscription.PayloadChan sub) payload with
    | Sent c => Done tt (withPayloadChan (Subscription.PayloadChan sub) c w)
    | NotReady => cancel (id, sub) w
    | SendPanics => Panicked SendOnClosedChannel
    end.
Proof.
  destruct sub as [pc q]. unfold offer, cancel, trySendPayload, bind. cbn.
  destruct (chansend_nb (payloadChans w !! pc) payload); reflexivity.
Qed.

Lemma offer_commute (payload : Payload) (e1 e2 : rpc.ID * Subscription.t) :
  Subscription.PayloadChan e1.2 ≠ Subscription.PayloadChan e2.2 →
  commute (offer payload e1) (offer payload e2).
Proof.
  destruct e1 as [id1 s1], e2 as [id2 s2]. cbn [snd]. intros Hne w.
  pose proof (cancel_commute (id1, s1) (id2, s2) w) as Hcc.
  unfold bind in *. rewrite !offer_run. rewrite !cancel_run in *.
  destruct (chansend_nb (payloadChans w !! Subscription.PayloadChan s1) payload)
    as [c1 | |] eqn:E1;
  destruct (chansend_nb (payloadChans w !! Subscription.PayloadChan s2) payload)
    as [c2 | |] eqn:E2.
  all: repeat first
    [ progress rewrite ?offer_run, ?cancel_run
    | progress cbn [withPayloadChan cancelled payloadChans boolChans]
    | rewrite lookup_insert_ne by done
    | rewrite E1 | rewrite E2
    | match goal with |- context [if ?b then _ else _] => destruct b eqn:? end ].
  all: try reflexivity.
  all: try (rewrite ?closedAt_signal in *; congruence).
  all: try (f_equal; unfold withPayloadChan, cancelled; cbn; f_equal; by apply insert_insert_ne).
  by rewrite cancelled_commute.
Qed.

Lemma close_any_order (order1 order2 : list (rpc.ID * Subscription.t)) (w : world) :
  order1 ≡ₚ order2 → close order1 w = close order2 w.
Proof.
  intros Hp. unfold close. apply bind_ext. intros _ w1.
  unfold bind. rewrite (forEach_Permutation cancel order1 order2 Hp); [done |].
  intros x y _ _. apply cancel_commute.
Qed.

(** X9.  [close] does the same whatever the order in which [range] yields
    the entries: the same result, and when it returns the same world. *)
Theorem close_order_irrelevant (order1 order2 : list (rpc.ID * Subscription.t))
    (w : world) :
  ranges (Subscriptions (sds w)) order1 →
  ranges (Subscriptions (sds w)) order2 →
  close order1 w = close order2 w.
Proof.
  unfold ranges. intros H1 H2. apply close_any_order. by rewrite H1, H2.
Qed.

(** X10.  When no two entries of the registry send on the same payload
    sink, [send] does the same whatever the order in which [range] yields
    the entries. *)
Theorem send_order_irrelevant (order1 order2 : list (rpc.ID * Subscription.t))
    (payload : Payload) (w : world) :
  ranges (Subscriptions (sds w)) order1 →
  ranges (Subscriptions (sds w)) order2 →
  (∀ id1 sub1 id2 sub2,
     Subscriptions (sds w) !! id1 = Some sub1 →
     Subscriptions (sds w) !! id2 = Some sub2 →
     id1 ≠ id2 →
     Subscription.PayloadChan sub1 ≠ Subscription.PayloadChan sub2) →
  send order1 payload w = send order2 payload w.
Proof.
  intros H1 H2 Hsinks. unfold send. apply bind_ext. intros _ w1.
  unfold bind at 1 3.
  rewrite (forEach_Permutation (offer payload) order1 order2); [done | |].
  - unfold ranges in *. by rewrite H1, H2.
  - intros [id1 s1] [id2 s2] Hx Hy.
    apply (ranges_elem _ _ _ _ H1) in Hx, Hy.
    destruct (decide (id1 = id2)) as [-> | Hne].
    + assert (s1 = s2) as -> by congruence. done.
    + apply offer_commute. cbn. by apply (Hsinks id1 s1 id2 s2).
Qed.

Lemma send_order_irrelevant_witness :
  ranges (Subscriptions (sds twoSubscribers)) twoOrder ∧
  ranges (Subscriptions (sds twoSubscribers)) (reverse twoOrder) ∧
  send twoOrder payload1 twoSubscribers =
  send (reverse twoOrder) payload1 twoSubscribers.
Proof.
  assert (ranges (Subscriptions (sds twoSubscribers)) (reverse twoOrder)) as Hrev.
  { unfold ranges. rewrite reverse_Permutation. exact twoOrder_ranges. }
  split; [exact twoOrder_ranges |]. split; [exact Hrev |].
  apply (send_order_irrelevant twoOrder (reverse twoOrder) payload1 twoSubscribers
           twoOrder_ranges Hrev).
  intros id1 sub1 id2 sub2 H1 H2 Hne.
  apply twoSubscribers_lookup in H1 as [[-> ->] | [-> ->]];
    apply twoSubscribers_lookup in H2 as [[-> ->] | [-> ->]]; done.
Defined.

Lemma close_order_irrelevant_witness :
  ranges (Subscriptions (sds twoSubscribers)) twoOrder ∧
  ranges (Subscriptions (sds twoSubscribers)) (reverse twoOrder) ∧
  close twoOrder twoSubscribers = close (reverse twoOrder) twoSubscribers.
Proof.
  assert (ranges (Subscriptions (sds twoSubscribers)) (reverse twoOrder)) as Hrev.
  { unfold ranges. rewrite reverse_Permutation. exact twoOrder_ranges. }
  split; [exact twoOrder_ranges |]. split; [exact Hrev |].
  exact (close_order_irrelevant twoOrder (reverse twoOrder) twoSubscribers
           twoOrder_ranges Hrev).
Defined.

(** ** Who is sent the quit signal *)

Lemma signal_lookup_eq (h h' : gmap ref (chan bool)) (q : ref) :
  h !! q = h' !! q → signal h q !! q = signal h' q !! q.
Proof.
  intros H. unfold signal. rewrite <- H.
  destruct (chansend_nb (h !! q) true); [| done | done].
  by rewrite !lookup_insert_eq.
Qed.

Lemma signal_lookup_own (h : gmap ref (chan bool)) (q : ref) :
  signal h q !! q =
    match chansend_nb (h !! q) true with
    | Sent c => Some c
    | _ => h !! q
    end.
Proof.
  unfold signal. destruct (chansend_nb (h !! q) true); [| done | done].
  apply lookup_insert_eq.
Qed.

Lemma signalAll_lookup_notin (l : list (rpc.ID * Subscription.t))
    (h : gmap ref (chan bool)) (q : ref) :
  q ∉ Subscription.QuitChan <$> l.*2 → signalAll l h !! q = h !! q.
Proof.
  unfold signalAll. revert h. induction l as [| e l IH]; intros h Hq; [done |].
  cbn [foldl]. rewrite fmap_cons, fmap_cons in Hq.
  apply not_elem_of_cons in Hq as [Hne Hq].
  rewrite IH by done. by apply signal_lookup_ne.
Qed.

Lemma signalAll_lookup_own (before after : list (rpc.ID * Subscription.t))
    (id : rpc.ID) (sub : Subscription.t) (h : gmap ref (chan bool)) :
  Subscription.QuitChan sub ∉ Subscription.QuitChan <$> before.*2 →
  Subscription.QuitChan sub ∉ Subscription.QuitChan <$> after.*2 →
  signalAll (before ++ (id, sub) :: after) h !! Subscription.QuitChan sub =
  signal h (Subscription.QuitChan sub) !! Subscription.QuitChan sub.
Proof.
  intros Hb Ha. unfold signalAll. rewrite foldl_app. cbn [foldl snd].
  fold (signalAll before h).
  fold (signalAll after (signal (signalAll before h) (Subscription.QuitChan sub))).
  rewrite signalAll_lookup_notin by done.
  apply signal_lookup_eq. by apply signalAll_lookup_notin.
Qed.

Lemma forEach_cancel_open (l : list (rpc.ID * Subscription.t)) (w w' : world) :
  forEach l cancel w = Done tt w' →
  ∀ id sub, (id, sub) ∈ l →
    closedAt (boolChans w) (Subscription.QuitChan sub) = false.
Proof.
  revert w. induction l as [| [id0 sub0] l IH]; intros w H id sub Hin.
  - by apply elem_of_nil in Hin.
  - cbn [forEach] in H. apply bind_Done in H as ([] & w1 & H1 & Hrest).
    rewrite cancel_run in H1.
    destruct (closedAt (boolChans w) (Subscription.QuitChan sub0)) eqn:Hcl;
      [discriminate |].
    injection H1 as <-.
    apply elem_of_cons in Hin as [[= -> ->] | Hin]; [exact Hcl |].
    specialize (IH _ Hrest id sub Hin). cbn in IH.
    by rewrite closedAt_signal in IH.
Qed.

(** No other entry of the registry signals on the quit sink of [id]. *)
Lemma own_quit_notin (m : gmap rpc.ID Subscription.t) (id : rpc.ID)
    (sub : Subscription.t) (l : list (rpc.ID * Subscription.t)) :
  (∀ id' sub', m !! id' = Some sub' → id' ≠ id →
     Subscription.QuitChan sub' ≠ Subscription.QuitChan sub) →
  (∀ e, e ∈ l → m !! e.1 = Some e.2) → id ∉ l.*1 →
  Subscription.QuitChan sub ∉ Subscription.QuitChan <$> l.*2.
Proof.
  intros Hun Hl Hid Hin.
  apply list_elem_of_fmap in Hin as (sub' & Heq & Hin).
  apply list_elem_of_fmap in Hin as ([id' sub''] & -> & Hin). cbn [snd] in Heq.
  apply (Hun id' sub''); [exact (Hl _ Hin) | | congruence].
  intros ->. apply Hid. apply list_elem_of_fmap. by exists (id, sub'').
Qed.

(** X11.  When [close] returns, a subscriber whose quit sink no other entry
    uses is gone from the registry, and its quit sink has taken exactly
    one [true] if it was ready for it (a parked receiver, or room in the
    buffer); if the sink was full or nil it is as before, and the signal
    is lost. *)
Theorem close_signals_own_sink (order : list (rpc.ID * Subscription.t))
    (w w' : world) (id : rpc.ID) (sub : Subscription.t) :
  ranges (Subscriptions (sds w)) order →
  close order w = Done tt w' →
  Subscriptions (sds w) !! id = Some sub →
  (∀ id' sub', Subscriptions (sds w) !! id' = Some sub' → id' ≠ id →
     Subscription.QuitChan sub' ≠ Subscription.QuitChan sub) →
  Subscriptions (sds w') !! id = None ∧
  match chansend_nb (boolChans w !! Subscription.QuitChan sub) true with
  | Sent c =>
      boolChans w' !! Subscription.QuitChan sub = Some c ∧
      (∀ c0, boolChans w !! Subscription.QuitChan sub = Some c0 → chan_ok c0 →
             accepted c = accepted c0 ++ [true])
  | NotReady =>
      boolChans w' !! Subscription.QuitChan sub =
        boolChans w !! Subscription.QuitChan sub
  | SendPanics => False
  end.
Proof.
  intros Hr Hclose Hid Hown.
  pose proof (close_Done _ _ _ Hr Hclose) as (HS & HB & _).
  split; [by rewrite HS, lookup_empty |].
  apply close_inv in Hclose as (_ & w1 & Hloop & _).
  pose proof Hid as Hin. apply (ranges_elem _ _ _ _ Hr) in Hin.
  pose proof (forEach_cancel_open _ _ _ Hloop id sub Hin) as Hopen.
  apply list_elem_of_split in Hin as (before & after & ->).
  pose proof (ranges_NoDup _ _ Hr) as Hnd.
  rewrite fmap_app, fmap_cons in Hnd. cbn [fst] in Hnd.
  apply NoDup_app in Hnd as (_ & Hbefore & [Hafter _]%NoDup_cons).
  assert (∀ e, e ∈ before ++ (id, sub) :: after →
               Subscriptions (sds w) !! e.1 = Some e.2) as Hall.
  { intros [id' sub'] He. by apply (ranges_elem _ _ _ _ Hr). }
  rewrite HB, signalAll_lookup_own, signal_lookup_own.
  - pose proof (chansend_nb_not_closedAt _ _ true Hopen) as Hnp.
    destruct (chansend_nb (boolChans w !! Subscription.QuitChan sub) true)
      as [c | |] eqn:Hs; [| done | done].
    split; [done |]. intros c0 Hc0 Hok. rewrite Hc0 in Hs.
    by destruct (chansend_nb_Sent_accepted c0 true c Hok Hs).
  - apply (own_quit_notin (Subscriptions (sds w)) id); [done | |].
    + intros e He. apply Hall. apply elem_of_app; auto.
    + intros Hb. apply (Hbefore id Hb). apply elem_of_cons; auto.
  - apply (own_quit_notin (Subscriptions (sds w)) id); [done | | done].
    intros e He. apply Hall. apply elem_of_app. right. apply elem_of_cons; auto.
Qed.

Lemma close_signals_own_sink_witness :
  ranges (Subscriptions (sds twoSubscribers)) twoOrder ∧
  ∃ w', close twoOrder twoSubscribers = Done tt w' ∧
        Subscriptions (sds twoSubscribers) !! "a"%string = Some subA ∧
        Subscriptions (sds w') !! "a"%string = None ∧
        boolChans w' !! 3%nat = Some (Chan 1 [true] 0 [] false).
Proof.
  split; [exact twoOrder_ranges |].
  destruct (close_total twoOrder twoSubscribers eq_refl) as [w' Hw'].
  { intros id sub Hin.
    apply elem_of_cons in Hin as [[= -> ->] | Hin]; [intros c [= <-]; reflexivity |].
    apply elem_of_cons in Hin as [[= -> ->] | Hin]; [intros c [= <-]; reflexivity |].
    by apply elem_of_nil in Hin. }
  exists w'. split; [exact Hw' |]. split; [reflexivity |].
  destruct (close_signals_own_sink twoOrder twoSubscribers w' "a" subA
              twoOrder_ranges Hw' eq_refl) as [Hgone Hsink].
  { intros id' sub' Hl Hne.
    apply twoSubscribers_lookup in Hl as [[-> ->] | [-> ->]]; done. }
  split; [exact Hgone |]. exact (proj1 Hsink).
Defined.

Lemma forEach_offer_quit_frame (payload : Payload)
    (l : list (rpc.ID * Subscription.t)) (w w' : world) :
  forEach l (offer payload) w = Done tt w' →
  ∀ r, r ∉ Subscription.QuitChan <$> l.*2 → boolChans w' !! r = boolChans w !! r.
Proof.
  revert w. induction l as [| [id sub] l IH]; intros w; cbn [forEach].
  - intros [= <-]. done.
  - intros H r Hr. apply bind_Done in H as ([] & w2 & H2 & Hrest).
    rewrite fmap_cons, fmap_cons in Hr. apply not_elem_of_cons in Hr as [Hne Hr].
    rewrite (IH _ Hrest r Hr).
    apply offer_Done in H2 as (_ & _ & _ & _ & H2).
    destruct (chansend_nb _ payload) as [c | |]; [| | done].
    + destruct H2 as (_ & -> & _). done.
    + destruct H2 as (_ & -> & _). by apply signal_lookup_ne.
Qed.

(** X12.  When [send] returns, a subscriber with a payload sink and a quit
    sink that no other entry uses has either taken the payload, and then
    it is still registered and nothing was sent on its quit sink; or its
    payload sink was not ready, and then it is gone from the registry and
    its quit sink has taken one [true] if it was ready for it and is as
    before if it was not. *)
Theorem send_evicted_is_signalled (order : list (rpc.ID * Subscription.t))
    (payload : Payload) (w w' : world) (id : rpc.ID) (sub : Subscription.t) :
  ranges (Subscriptions (sds w)) order →
  send order payload w = Done tt w' →
  Subscriptions (sds w) !! id = Some sub →
  unshared (Subscriptions (sds w)) id sub →
  (∀ id' sub', Subscriptions (sds w) !! id' = Some sub' → id' ≠ id →
     Subscription.QuitChan sub' ≠ Subscription.QuitChan sub) →
  match chansend_nb (payloadChans w !! Subscription.PayloadChan sub) payload with
  | Sent c =>
      Subscriptions (sds w') !! id = Some sub ∧
      payloadChans w' !! Subscription.PayloadChan sub = Some c ∧
      boolChans w' !! Subscription.QuitChan sub =
        boolChans w !! Subscription.QuitChan sub
  | NotReady =>
      Subscriptions (sds w') !! id = None ∧
      boolChans w' !! Subscription.QuitChan sub =
        match chansend_nb (boolChans w !! Subscription.QuitChan sub) true with
        | Sent c => Some c
        | _ => boolChans w !! Subscription.QuitChan sub
        end
  | SendPanics => False
  end.
Proof.
  intros Hr Hsend Hid Hun Hown.
  apply send_inv in Hsend as (_ & wl & Hloop & ->).
  pose proof (send_own_sink payload order w wl id sub Hr Hloop Hid Hun) as Hsink.
  pose proof Hid as Hin. apply (ranges_elem _ _ _ _ Hr) in Hin.
  apply list_elem_of_split in Hin as (before & after & ->).
  destruct (send_turn payload (Subscriptions (sds w)) before after id sub
              (locked w) wl eq_refl Hr Hloop)
    as (w1 & w2 & H1 & H2 & H3 & Hcase).
  pose proof (ranges_NoDup _ _ Hr) as Hnd.
  rewrite fmap_app, fmap_cons in Hnd. cbn [fst] in Hnd.
  apply NoDup_app in Hnd as (_ & Hbefore & [Hafter _]%NoDup_cons).
  assert (∀ e, e ∈ before ++ (id, sub) :: after →
               Subscriptions (sds w) !! e.1 = Some e.2) as Hall.
  { intros [id' sub'] He. by apply (ranges_elem _ _ _ _ Hr). }
  assert (payloadChans w1 !! Subscription.PayloadChan sub =
          payloadChans w !! Subscription.PayloadChan sub) as EP.
  { pose proof (forEach_offer_frame _ _ _ _ H1) as (_ & _ & _ & _ & _ & _ & HP1).
    rewrite HP1; [reflexivity |].
    apply (unshared_notin (Subscriptions (sds w)) id); [done | |].
    - intros e He. apply Hall. apply elem_of_app; auto.
    - intros Hb. apply (Hbefore id Hb). apply elem_of_cons; auto. }
  assert (boolChans w1 !! Subscription.QuitChan sub =
          boolChans w !! Subscription.QuitChan sub) as E1.
  { rewrite (forEach_offer_quit_frame _ _ _ _ H1); [reflexivity |].
    apply (own_quit_notin (Subscriptions (sds w)) id); [done | |].
    - intros e He. apply Hall. apply elem_of_app; auto.
    - intros Hb. apply (Hbefore id Hb). apply elem_of_cons; auto. }
  assert (boolChans wl !! Subscription.QuitChan sub =
          boolChans w2 !! Subscription.QuitChan sub) as E3.
  { apply (forEach_offer_quit_frame _ _ _ _ H3).
    apply (own_quit_notin (Subscriptions (sds w)) id); [done | | done].
    intros e He. apply Hall. apply elem_of_app. right. apply elem_of_cons; auto. }
  rewrite EP in Hcase.
  destruct (chansend_nb (payloadChans w !! Subscription.PayloadChan sub) payload)
    as [c | |]; [| | done].
  - destruct Hsink as [HS HP]. destruct Hcase as (_ & _ & HB & _).
    split; [exact HS |]. split; [exact HP |].
    change (boolChans (afterSend wl)) with (boolChans wl).
    by rewrite E3, HB, E1.
  - destruct Hsink as [HS _]. destruct Hcase as (_ & HB & _).
    split; [exact HS |].
    change (boolChans (afterSend wl)) with (boolChans wl).
    rewrite E3, HB, signal_lookup_own.
    by rewrite E1.
Qed.

Lemma send_evicted_is_signalled_witness :
  ranges (Subscriptions (sds twoSubscribers)) twoOrder ∧
  ∃ w', send twoOrder payload1 twoSubscribers = Done tt w' ∧
        Subscriptions (sds w') !! "a"%string = None ∧
        boolChans w' !! 3%nat = Some (Chan 1 [true] 0 [] false) ∧
        Subscriptions (sds w') !! "b"%string = Some subB ∧
        boolChans w' !! 4%nat = Some (make 1).
Proof.
  split; [exact twoOrder_ranges |].
  assert (sinks_open twoSubscribers twoOrder) as Hopen.
  { intros id sub Hin.
    apply elem_of_cons in Hin as [[= -> ->] | Hin];
      [split; intros c [= <-]; reflexivity |].
    apply elem_of_cons in Hin as [[= -> ->] | Hin];
      [split; intros c [= <-]; reflexivity |].
    by apply elem_of_nil in Hin. }
  destruct (forEach_offer_total payload1 twoOrder (locked twoSubscribers) Hopen)
    as [wl Hwl].
  pose proof (send_run twoOrder payload1 twoSubscribers wl eq_refl Hwl) as Hsend.
  exists (afterSend wl). split; [exact Hsend |].
  assert (∀ id sub, Subscriptions (sds twoSubscribers) !! id = Some sub →
            unshared (Subscriptions (sds twoSubscribers)) id sub ∧
            ∀ id' sub', Subscriptions (sds twoSubscribers) !! id' = Some sub' →
              id' ≠ id →
              Subscription.QuitChan sub' ≠ Subscription.QuitChan sub) as Hown.
  { intros id sub Hl.
    apply twoSubscribers_lookup in Hl as [[-> ->] | [-> ->]]; split;
      intros id' sub' Hl' Hne;
      apply twoSubscribers_lookup in Hl' as [[-> ->] | [-> ->]]; done. }
  destruct (Hown "a"%string subA eq_refl) as [Hpa Hqa].
  destruct (Hown "b"%string subB eq_refl) as [Hpb Hqb].
  pose proof (send_evicted_is_signalled twoOrder payload1 twoSubscribers
                (afterSend wl) "a" subA twoOrder_ranges Hsend eq_refl Hpa Hqa) as Ha.
  pose proof (send_evicted_is_signalled twoOrder payload1 twoSubscribers
                (afterSend wl) "b" subB twoOrder_ranges Hsend eq_refl Hpb Hqb) as Hb.
  destruct Ha as [Ha1 Ha2]. destruct Hb as (Hb1 & _ & Hb2).
  repeat split; assumption.
Defined.

(** ** [Loop] over a longer queue *)

Section LoopFacts.

Context {A : Type}.
Variable EncodeAccount : A → bytes + error.
Variable EncodeStateDiff : StateDiff.t bytes → bytes + error.

(** X13.  [Loop] over the cases [l1 ++ l2] is [Loop] over [l1] followed,
    when that one is still waiting, by [Loop] over [l2] from the world it
    left; a [Loop] that has returned, panicked or parked during [l1] takes
    no case of [l2]. *)
Theorem Loop_app (l1 l2 : list (selected A)) (w : world) :
  Loop EncodeAccount EncodeStateDiff (l1 ++ l2) w =
    match Loop EncodeAccount EncodeStateDiff l1 w with
    | Done Waiting w1 => Loop EncodeAccount EncodeStateDiff l2 w1
    | other => other
    end.
Proof.
  revert w. induction l1 as [| c l1 IH]; intros w; [reflexivity |].
  destruct c as [ev it | err order | order]; cbn [app Loop].
  - unfold bind.
    destruct (processStateChanges _ _ ev it w) as [[e |] w1 | p | w1];
      [| apply IH | reflexivity | reflexivity].
    destruct (log _ w1) as [[] w2 | p | w2]; [apply IH | reflexivity | reflexivity].
  - unfold bind. destruct (log (LogWarn err) w) as [[] w1 | p | w1];
      [| reflexivity | reflexivity].
    destruct (close order w1) as [[] w2 | p | w2]; reflexivity.
  - unfold bind. destruct (close order w) as [[] w1 | p | w1]; reflexivity.
Qed.

(** X14.  A [Loop] that comes back from its cases has returned exactly
    when one of them was the upstream error or the quit signal: as long as
    only events arrive it keeps waiting, whatever happens to the events
    and to the subscribers. *)
Theorem Loop_returns_only_on_stop (cases : list (selected A)) (w w' : world)
    (st : loopState) :
  Loop EncodeAccount EncodeStateDiff cases w = Done st w' →
  (st = Returned ↔ ∃ c order, c ∈ cases ∧ stopCase c = Some order) ∧
  (st = Waiting ↔ ∀ c, c ∈ cases → stopCase c = None).
Proof.
  revert w. induction cases as [| c cases IH]; intros w H.
  - cbn in H. injection H as <- <-. split; split.
    + discriminate.
    + intros (c & order & Hin & _). by apply elem_of_nil in Hin.
    + intros _ c Hin. by apply elem_of_nil in Hin.
    + reflexivity.
  - destruct c as [ev it | err order | order]; cbn [Loop] in H.
    + apply bind_Done in H as (r & w1 & _ & H).
      apply bind_Done in H as ([] & w2 & _ & H).
      destruct (IH _ H) as [[R1 R2] [W1 W2]]. split; split.
      * intros Hst. destruct (R1 Hst) as (c & order & Hin & Hc).
        exists c, order. split; [apply elem_of_cons; auto | done].
      * intros (c & order & [-> | Hin]%elem_of_cons & Hc); [discriminate |].
        apply R2. eauto.
      * intros Hst c [-> | Hin]%elem_of_cons; [reflexivity | by apply W1].
      * intros Hall. apply W2. intros c Hin. apply Hall. apply elem_of_cons; auto.
    + apply bind_Done in H as ([] & w1 & _ & H).
      apply bind_Done in H as ([] & w2 & _ & [= <- <-]). split; split.
      * intros _. exists (ErrReceived err order), order.
        split; [apply elem_of_cons; auto | reflexivity].
      * reflexivity.
      * discriminate.
      * intros Hall. specialize (Hall (ErrReceived err order)).
        cbn in Hall. discriminate Hall. apply elem_of_cons; auto.
    + apply bind_Done in H as ([] & w2 & _ & [= <- <-]). split; split.
      * intros _. exists (QuitReceived order), order.
        split; [apply elem_of_cons; auto | reflexivity].
      * reflexivity.
      * discriminate.
      * intros Hall. specialize (Hall (QuitReceived order)).
        cbn in Hall. discriminate Hall. apply elem_of_cons; auto.
Qed.




End LoopFacts.
(** Block 1 is sent, the account of block 2 does not serialize: [Loop] has
    taken two events and is still waiting. *)
Lemma Loop_returns_only_on_stop_witness :
  ∃ w', Loop encodeBalance encodeDiff
          [EventReceived (oneAccount 1 5) (oneAccountOrder 5);
           EventReceived (oneAccount 2 (-1)) (oneAccountOrder (-1))] roomySubscriber
          = Done Waiting w' ∧
        ∀ c, c ∈ [EventReceived (oneAccount 1 5) (oneAccountOrder 5);
                  EventReceived (oneAccount 2 (-1)) (oneAccountOrder (-1))] →
             stopCase c = None.
Proof.
  eexists. split; [vm_compute; reflexivity |].
  eapply (Loop_returns_only_on_stop encodeBalance encodeDiff _ roomySubscriber _ Waiting);
    [vm_compute; reflexivity | reflexivity].
Defined.


(** ** The block number [ExtractStateDiff] hands to the builder *)

Lemma wrap64_add (z k : Z) : wrap64 (z + k * 2 ^ 64) = wrap64 z.
Proof.
  unfold wrap64. replace (z + k * 2 ^ 64 + 2 ^ 63) with (z + 2 ^ 63 + k * 2 ^ 64) by lia.
  by rewrite Z.mod_add.
Qed.

Lemma wrap64_shift (z : Z) : ∃ k, wrap64 z = z + k * 2 ^ 64.
Proof.
  exists (- ((z + 2 ^ 63) / 2 ^ 64)). unfold wrap64.
  rewrite Z.mod_eq by lia. lia.
Qed.

Lemma wrap64_id (z : Z) : - 2 ^ 63 ≤ z < 2 ^ 63 → wrap64 z = z.
Proof.
  intros H. unfold wrap64. rewrite Z.mod_small by lia. lia.
Qed.

(** [Int64] keeps the number modulo [2 ^ 64], in the range of [int64]. *)
Lemma Int64_wrap64 (x : Z) : Int64 x = wrap64 x.
Proof.
  unfold Int64. cbv zeta.
  assert (∃ k, Z.abs x mod 2 ^ 64 = Z.abs x + k * 2 ^ 64) as [k1 E1].
  { exists (- (Z.abs x / 2 ^ 64)). rewrite Z.mod_eq by lia. lia. }
  rewrite E1, wrap64_add.
  destruct (Z.ltb_spec x 0) as [Hneg | Hpos].
  - destruct (wrap64_shift (Z.abs x)) as [k2 E2]. rewrite E2.
    replace (- (Z.abs x + k2 * 2 ^ 64)) with (x + (- k2) * 2 ^ 64) by lia.
    apply wrap64_add.
  - by rewrite Z.abs_eq by lia.
Qed.

Section ExtractorFacts.

Context {W D : Type}.
Variable BuildStateDiff :
  common.Hash → common.Hash → Z → common.Hash → W → (D * option error) * W.
Variable PublishStateDiff : D → W → (string * option error) * W.

(** X16.  When the number of the current block fits an [int64],
    [ExtractStateDiff] calls the builder with the parent's root, the
    current block's root, that very number and the current block's hash;
    it returns the empty string and the builder's error when there is
    one, and what the publisher returns on the built diff otherwise. *)
Theorem ExtractStateDiff_number_in_range (parent current : types.Block) (w : W) :
  - 2 ^ 63 ≤ types.Number current < 2 ^ 63 →
  ExtractStateDiff BuildStateDiff PublishStateDiff parent current w =
    match BuildStateDiff (types.Root parent) (types.Root current)
                         (types.Number current) (types.Hash current) w with
    | ((_, Some e), w') => ((EmptyString, Some e), w')
    | ((stateDiff, None), w') => PublishStateDiff stateDiff w'
    end.
Proof.
  intros H. unfold ExtractStateDiff. rewrite Int64_wrap64, wrap64_id by done.
  destruct (BuildStateDiff _ _ _ _ w) as [[stateDiff [e |]] w']; reflexivity.
Qed.

(** X17.  [ExtractStateDiff] reads of the parent block only its root, and
    of the current block its root, its hash and its number modulo
    [2 ^ 64]: two calls on blocks that agree on these return the same,
    so a block number that does not fit an [int64] is diffed as the
    number it wraps to. *)
Theorem ExtractStateDiff_number_wraps (parent parent' current current' : types.Block)
    (k : Z) (w : W) :
  types.Root parent' = types.Root parent →
  types.Root current' = types.Root current →
  types.Hash current' = types.Hash current →
  types.Number current' = types.Number current + k * 2 ^ 64 →
  ExtractStateDiff BuildStateDiff PublishStateDiff parent' current' w =
  ExtractStateDiff BuildStateDiff PublishStateDiff parent current w.
Proof.
  intros Hp Hr Hh Hn. unfold ExtractStateDiff.
  by rewrite Hp, Hr, Hh, !Int64_wrap64, Hn, wrap64_add.
Qed.

End ExtractorFacts.
(** Block number 7 is passed on as it is. *)
Lemma ExtractStateDiff_number_in_range_witness :
  ExtractStateDiff (W := list Z) (D := bytes)
    (fun _ _ n _ seen => (([], None), seen ++ [n]))
    (fun _ seen => (("published"%string, None), seen))
    block1
    {| types.Root := replicate 32 17%N; types.Number := 7;
       types.Hash := replicate 32 7%N |} []
  = (("published"%string, None), [7]).
Proof.
  rewrite ExtractStateDiff_number_in_range; [reflexivity | cbn; lia].
Defined.

(** Block number [2 ^ 63] is diffed as block number [- 2 ^ 63]. *)
Lemma ExtractStateDiff_number_wraps_witness :
  ExtractStateDiff (W := list Z) (D := bytes)
    (fun _ _ n _ seen => (([], None), seen ++ [n]))
    (fun _ seen => (("published"%string, None), seen))
    block1
    {| types.Root := replicate 32 17%N; types.Number := 2 ^ 63;
       types.Hash := replicate 32 7%N |} []
  = (("published"%string, None), [- 2 ^ 63]).
Proof.
  rewrite (ExtractStateDiff_number_wraps _ _ block1 block1
             {| types.Root := replicate 32 17%N; types.Number := - 2 ^ 63;
                types.Hash := replicate 32 7%N |} _ 1);
    reflexivity.
Defined.

(** ** [Loop] on a service whose mutex was never released *)

Section LoopHeld.

Context {A : Type}.
Variable EncodeAccount : A → bytes + error.
Variable EncodeStateDiff : StateDiff.t bytes → bytes + error.

(** X18.  On a service whose mutex is held (as a failed [Unsubscribe]
    leaves it), [Loop] parks for good at the first case that is an event
    with a payload to send, an upstream error or the quit signal: no
    subscriber is sent anything, nobody is signalled or removed, and the
    loop never returns. *)
Theorem Loop_held_mutex_parks (cases : list (selected A)) (c : selected A)
    (w : world) :
  Mutex (sds w) = true →
  c ∈ cases →
  lineOf EncodeAccount EncodeStateDiff c = None ∨ stopCase c ≠ None →
  ∃ w', Loop EncodeAccount EncodeStateDiff cases w = Blocked w' ∧
        sds w' = sds w ∧ payloadChans w' = payloadChans w ∧
        boolChans w' = boolChans w.
Proof.
  intros Hmu Hin Hc. revert w Hmu.
  induction cases as [| c0 cases IH]; intros w Hmu; [by apply elem_of_nil in Hin |].
  destruct c0 as [ev it | err order | order]; cbn [Loop].
  - unfold bind at 1.
    destruct (payloadOf EncodeAccount EncodeStateDiff (ev, it)) as [p |] eqn:Hp.
    + rewrite (processStateChanges_payloadOf _ _ _ _ _ _ Hp). unfold bind at 1.
      rewrite (send_held _ _ _ Hmu). by exists w.
    + destruct (processStateChanges_skips _ _ ev it w Hp) as [e ->].
      unfold bind at 1. cbn [log].
      apply elem_of_cons in Hin as [-> | Hin].
      * exfalso. destruct Hc as [Hc | Hc]; [| by apply Hc].
        revert Hp Hc. unfold payloadOf, lineOf. cbn [fst snd].
        destruct (assemble EncodeAccount ev it) as [d | e0]; [| discriminate].
        destruct (EncodeStateDiff d); discriminate.
      * destruct (IH Hin (logging
            (LogError (types.Number (core.Block ev)) e) w) Hmu)
          as (w' & Hrun & Hs & HP & HB).
        exists w'. split; [exact Hrun | by rewrite Hs, HP, HB].
  - unfold bind at 1. cbn [log]. unfold bind at 1.
    rewrite close_held by exact Hmu. eexists. split; [reflexivity | done].
  - unfold bind at 1. rewrite close_held by exact Hmu. by exists w.
Qed.

End LoopHeld.

(** [Unsubscribe] of an id nobody registered, then an event that encodes
    and the quit signal: [Loop] parks at the event, and the subscriber's
    sink stays empty. *)
Lemma Loop_held_mutex_parks_witness :
  ∃ w1 w',
    Unsubscribe "b" roomySubscriber =
      Done (Some "cannot unsubscribe; subscription for id b does not exist"%string) w1 ∧
    Loop encodeBalance encodeDiff
      [EventReceived (oneAccount 1 5) (oneAccountOrder 5); QuitReceived oneOrder] w1
      = Blocked w' ∧
    sds w' = sds w1 ∧ payloadChans w' = payloadChans roomySubscriber ∧
    boolChans w' = boolChans roomySubscriber.
Proof.
  eexists. 
  destruct (Loop_held_mutex_parks encodeBalance encodeDiff
              [EventReceived (oneAccount 1 5) (oneAccountOrder 5); QuitReceived oneOrder]
              (EventReceived (oneAccount 1 5) (oneAccountOrder 5))
              (locked roomySubscriber) eq_refl)
    as (w' & Hrun & Hs & HP & HB).
  { apply elem_of_cons. by left. }
  { left. reflexivity. }
  exists w'. split; [reflexivity |]. split; [exact Hrun |]. 
  split; [exact Hs |]. split; [exact HP | exact HB].
Defined.

(** ** A service from construction to shutdown *)


Section Lifecycle.

Context {A : Type}.
Variable EncodeAccount : A → bytes + error.
Variable EncodeStateDiff : StateDiff.t bytes → bytes + error.


End Lifecycle.

(** ** When the diff record reads as it was built *)

Lemma last_elem_of {X} (l : list X) (x : X) : last l = Some x → x ∈ l.
Proof.
  induction l as [| y l IH]; [discriminate |].
  destruct l as [| z l].
  - intros [= ->]. apply elem_of_cons. by left.
  - intros H. apply elem_of_cons. right. by apply IH.
Qed.

Lemma observedStorage_keyed (entries : list (common.Hash * common.Hash)) :
  NoDup entries.*1 →
  observedStorage entries = keyedStorage entries ↔ (length entries ≤ 1)%nat.
Proof.
  intros Hnd. destruct entries as [| [k1 v1] [| e2 rest]].
  - split; [cbn; lia | reflexivity].
  - split; [cbn; lia | reflexivity].
  - split; [| cbn; lia]. intros H. exfalso.
    unfold observedStorage in H.
    destruct (last ((k1, v1) :: e2 :: rest)) as [[k v] |] eqn:E; [| discriminate].
    cbn in H. injection H as Hk _ _.
    change (last ((k1, v1) :: e2 :: rest)) with (last (e2 :: rest)) in E.
    apply last_elem_of in E.
    rewrite fmap_cons in Hnd. apply NoDup_cons in Hnd as [Hnotin _].
    apply Hnotin. cbn [fst]. rewrite <- Hk.
    apply list_elem_of_fmap. by exists (k, v).
Qed.

Lemma observedAccounts_keyed {A}
    (storageOrder : common.Address → list (common.Hash * common.Hash))
    (entries : list (common.Address * state.ModifiedAccount A))
    (encoded : list bytes) :
  NoDup entries.*1 →
  (∀ e, e ∈ entries → NoDup (storageOrder e.1).*1) →
  length encoded = length entries →
  observedAccounts storageOrder entries encoded =
    keyedAccounts storageOrder entries encoded ↔
  (length entries ≤ 1)%nat ∧
  ∀ e, e ∈ entries → (length (storageOrder e.1) ≤ 1)%nat.
Proof.
  intros Hnd Hst Hlen. destruct entries as [| [a1 m1] [| e2 rest]].
  - split; [| reflexivity]. intros _. split; [cbn; lia |].
    intros e He. by apply elem_of_nil in He.
  - destruct encoded as [| b [| b' encoded]]; [discriminate | | discriminate].
    unfold observedAccounts, keyedAccounts. cbn [last zip_with fst].
    assert (NoDup (storageOrder a1).*1) as Hnd1.
    { apply (Hst (a1, m1)). apply elem_of_cons. by left. }
    split.
    + intros [= H]. split; [cbn; lia |].
      intros e [-> | He]%elem_of_cons; [| by apply elem_of_nil in He].
      by apply observedStorage_keyed.
    + intros [_ H]. do 2 f_equal. apply observedStorage_keyed; [done |].
      apply (H (a1, m1)). apply elem_of_cons. by left.
  - split; [| cbn; intros [? _]; lia]. intros H. exfalso.
    destruct encoded as [| b1 [| b2 encoded]]; [discriminate | discriminate |].
    unfold observedAccounts, keyedAccounts in H.
    destruct (last ((a1, m1) :: e2 :: rest)) as [[a m] |] eqn:E; [| discriminate].
    cbn [zip_with fst] in H. injection H as Ha _ _.
    change (last ((a1, m1) :: e2 :: rest)) with (last (e2 :: rest)) in E.
    apply last_elem_of in E.
    rewrite fmap_cons in Hnd. apply NoDup_cons in Hnd as [Hnotin _].
    apply Hnotin. cbn [fst]. rewrite <- Ha.
    apply list_elem_of_fmap. by exists (a, m).
Qed.

Section Keyed.

Context {A : Type}.
Variable EncodeAccount : A → bytes + error.

(** X20.  For an event whose accounts all serialize, the record
    [assemble] returns reads as it was built (every account diff under
    its own address, every storage diff with its own slot and value)
    exactly when the event modified at most one account and at most one
    storage slot of it.  With a second account, or a second slot, a key
    reads as the one visited last. *)
Theorem assemble_keyed_iff (stateChangeEvent : core.StateChangeEvent A)
    (it : iteration A) (encoded : list bytes) :
  ranges_event stateChangeEvent it →
  Forall2 (fun e b => EncodeAccount (state.Account e.2) = inl b)
          (accountOrder it) encoded →
  assemble EncodeAccount stateChangeEvent it =
    inl (StateDiff.mk (types.Number (core.Block stateChangeEvent))
                      (types.Hash (core.Block stateChangeEvent))
                      (keyedAccounts (storageOrder it) (accountOrder it) encoded)
                      [] None) ↔
  (size (state.ModifiedAccounts (core.StateChanges stateChangeEvent)) ≤ 1)%nat ∧
  ∀ a m, state.ModifiedAccounts (core.StateChanges stateChangeEvent) !! a = Some m →
         (size (state.Storage m) ≤ 1)%nat.
Proof.
  intros [Hr Hst] Hall. rewrite (assemble_observed _ _ _ _ Hall).
  assert (length (accountOrder it) =
          size (state.ModifiedAccounts (core.StateChanges stateChangeEvent))) as Hsize.
  { unfold ranges in Hr. rewrite Hr. apply length_map_to_list. }
  assert (∀ a m, (a, m) ∈ accountOrder it ↔
            state.ModifiedAccounts (core.StateChanges stateChangeEvent) !! a = Some m)
    as Helem.
  { intros a m. unfold ranges in Hr. rewrite Hr. apply elem_of_map_to_list. }
  assert (∀ a m, (a, m) ∈ accountOrder it →
            length (storageOrder it a) = size (state.Storage m)) as Hslots.
  { intros a m Hin. apply Helem in Hin. specialize (Hst a m Hin).
    unfold ranges in Hst. rewrite Hst. apply length_map_to_list. }
  assert (observedAccounts (storageOrder it) (accountOrder it) encoded =
            keyedAccounts (storageOrder it) (accountOrder it) encoded ↔
          (length (accountOrder it) ≤ 1)%nat ∧
          ∀ e, e ∈ accountOrder it → (length (storageOrder it e.1) ≤ 1)%nat) as Hiff.
  { apply observedAccounts_keyed.
    - unfold ranges in Hr. rewrite Hr. apply NoDup_fst_map_to_list.
    - intros [a m] Hin. cbn [fst]. apply Helem in Hin. specialize (Hst a m Hin).
      unfold ranges in Hst. rewrite Hst. apply NoDup_fst_map_to_list.
    - symmetry. by eapply Forall2_length. }
  rewrite <- Hsize. split.
  - intros [= H]. apply Hiff in H as [H1 H2]. split; [exact H1 |].
    intros a m Hin. apply Helem in Hin. rewrite <- (Hslots a m Hin).
    exact (H2 (a, m) Hin).
  - intros [H1 H2]. do 2 f_equal. apply Hiff. split; [exact H1 |].
    intros [a m] Hin. cbn [fst]. rewrite (Hslots a m Hin).
    apply (H2 a m). by apply Helem.
Qed.

End Keyed.

Lemma oneSlotOrder_ranges : ranges_event oneSlot oneSlotOrder.
Proof.
  split.
  - unfold ranges. vm_compute. reflexivity.
  - intros a m Hm. cbn in Hm. apply lookup_singleton_Some in Hm as [_ <-].
    unfold ranges. vm_compute. reflexivity.
Qed.

(** One account, one slot: the record has the account under [address1]
    and the slot under [slot1]. *)
Lemma assemble_keyed_iff_witness :
  assemble encodeBalance oneSlot oneSlotOrder =
    inl (StateDiff.mk 1 (types.Hash block1)
           [AccountDiff.mk address1 [5%N] [StorageDiff.mk slot1 word7]] [] None).
Proof.
  assert (Forall2 (fun e b => encodeBalance (state.Account e.2) = inl b)
            (accountOrder oneSlotOrder) [[5%N]]) as Hall.
  { repeat constructor. }
  apply (assemble_keyed_iff encodeBalance oneSlot oneSlotOrder [[5%N]]
           oneSlotOrder_ranges Hall).
  split.
  - vm_compute. lia.
  - intros a m Hm. cbn in Hm. apply lookup_singleton_Some in Hm as [_ <-].
    vm_compute. lia.
Defined.

(** ** An empty registry *)

Lemma ranges_empty (order : list (rpc.ID * Subscription.t)) :
  ranges (∅ : gmap rpc.ID Subscription.t) order → order = [].
Proof.
  unfold ranges. rewrite map_to_list_empty. apply Permutation_nil_r.
Qed.

Section NoSubscribers.

Context {A : Type}.
Variable EncodeAccount : A → bytes + error.
Variable EncodeStateDiff : StateDiff.t bytes → bytes + error.


End NoSubscribers.


(** X22.  [close] can be repeated: once [close] has returned, a second
    [close] on the service finds the registry empty, signals nobody and
    returns with nothing changed (unlike [Stop], which panics the second
    time). *)
Theorem close_idempotent (order order' : list (rpc.ID * Subscription.t))
    (w w' : world) :
  ranges (Subscriptions (sds w)) order →
  close order w = Done tt w' →
  ranges (Subscriptions (sds w')) order' →
  close order' w' = Done tt w'.
Proof.
  intros Hr Hrun Hr'.
  apply (close_Done _ _ _ Hr) in Hrun as (Hsubs & _ & _ & _ & Hmu & _).
  rewrite Hsubs in Hr'. apply ranges_empty in Hr'. subst order'.
  rewrite (close_run [] w' (locked w') Hmu eq_refl).
  destruct w' as [[mu qc subs n] P B lg]. cbn in *. by subst.
Qed.

Lemma close_idempotent_witness :
  ∃ w', close oneOrder oneSubscriber = Done tt w' ∧ close [] w' = Done tt w'.
Proof.
  eexists. split; [vm_compute; reflexivity |].
  eapply (close_idempotent oneOrder [] oneSubscriber).
  - exact oneOrder_ranges.
  - vm_compute; reflexivity.
  - unfold ranges. vm_compute. reflexivity.
Defined.
